(** * GF128: doubling and multiplication helpers in GF(2^128)

    A shallow embedding of [src/GF128.cpp] (the GF(2^128) helpers of the
    ECCX08 Arduino library) and the proofs of its specification.

    The C++ functions work in place on caller-owned arrays
    [uint32_t V[4]].  They are embedded as transformers of a byte-addressed
    memory: a pointer is an address, [V[i]] is the 32-bit word stored at
    [V + 4*i] in the byte order of the host, and every assignment to
    [V[i]] is a store.

    Each doubling function has two bodies, selected by the preprocessor:
    inline assembly on AVR, embedded as a list of instructions run by a
    small register machine, and portable C++ on 32-bit words, embedded for
    little-endian and for big-endian hosts.  The theorems hold for all of
    them.

    Definitions come first, in the order of the source; the proofs
    follow: memory, bits, bytes and words, the portable code, the
    assembly, and at the end the statements of the specification. *)

From Stdlib Require Import ZArith List Lia Bool Btauto.
From coqutil Require Import Byte.
Import ListNotations.

Local Open Scope Z_scope.

(** ** 32-bit unsigned arithmetic ([uint32_t]) *)

Module U32.

Definition wrap (x : Z) : Z := x mod 2 ^ 32.

(** [~x] *)
Definition not (x : Z) : Z := wrap (Z.lnot x).
(** [x + y] *)
Definition add (x y : Z) : Z := wrap (x + y).
(** [x << n] *)
Definition shl (x n : Z) : Z := wrap (Z.shiftl x n).
(** [x >> n] *)
Definition shr (x n : Z) : Z := Z.shiftr x n.

End U32.

(** ** Byte-addressed memory *)

Module Mem.

Definition addr := nat.
Definition mem := addr -> byte.

Definition store8 (m : mem) (a : addr) (b : byte) : mem :=
  fun x => if Nat.eqb x a then b else m x.

(** The [n] bytes found at [a], [a+1], ... *)
Fixpoint read (m : mem) (a : addr) (n : nat) : list byte :=
  match n with
  | O => []
  | S k => m a :: read m (S a) k
  end.

(** Store the bytes [bs] at [a], [a+1], ... *)
Fixpoint write (m : mem) (a : addr) (bs : list byte) : mem :=
  match bs with
  | [] => m
  | b :: t => write (store8 m a b) (S a) t
  end.

(** [memcpy(dst, src, n)]; the two areas must not overlap. *)
Definition memcpy (m : mem) (dst src : addr) (n : nat) : mem :=
  write m dst (read m src n).

(** A memory filled with zero bytes. *)
Definition zero : mem := fun _ => Byte.x00.

(** The areas [a, a+n) and [b, b+k) have no byte in common. *)
Definition disjoint (a n b k : nat) : Prop := (a + n <= b \/ b + k <= a)%nat.

End Mem.

Import Mem.

(** ** Byte order *)

Inductive endian := LittleEndian | BigEndian.

(** The value of a byte string, the first byte most significant. *)
Fixpoint be_value (bs : list byte) : Z :=
  match bs with
  | [] => 0
  | b :: t => Z.lor (Z.shiftl (byte.unsigned b) (8 * Z.of_nat (length t))) (be_value t)
  end.

(** The value of a byte string, the first byte least significant. *)
Definition le_value (bs : list byte) : Z := be_value (rev bs).

(** The [n] low bytes of a value, most significant first. *)
Fixpoint be_bytes (n : nat) (v : Z) : list byte :=
  match n with
  | O => []
  | S k => byte.of_Z (Z.shiftr v (8 * Z.of_nat k)) :: be_bytes k v
  end.

(** The [n] low bytes of a value, least significant first. *)
Definition le_bytes (n : nat) (v : Z) : list byte := rev (be_bytes n v).

(** Reading the [uint32_t] at address [a] on a host of byte order [e]. *)
Definition load32 (e : endian) (m : mem) (a : addr) : Z :=
  match e with
  | LittleEndian => le_value (read m a 4)
  | BigEndian => be_value (read m a 4)
  end.

(** Assigning the [uint32_t] at address [a] on a host of byte order [e]. *)
Definition store32 (e : endian) (m : mem) (a : addr) (w : Z) : mem :=
  match e with
  | LittleEndian => write m a (le_bytes 4 w)
  | BigEndian => write m a (be_bytes 4 w)
  end.

(** Modelled from the spec: [utility/EndianUtil.h], which defines the
    conversion macros [be32toh], [htobe32], [le32toh] and [htole32], is not
    part of the sources.  They convert a word between the host's byte order
    and the named one: the identity when the two agree, a swap of the four
    bytes otherwise. *)
Definition bswap32 (x : Z) : Z :=
  Z.lor (Z.land (U32.shr x 24) 0x000000FF)
    (Z.lor (Z.land (U32.shr x 8) 0x0000FF00)
       (Z.lor (Z.land (U32.shl x 8) 0x00FF0000)
          (Z.land (U32.shl x 24) 0xFF000000))).

Definition htobe32 (host : endian) (x : Z) : Z :=
  match host with LittleEndian => bswap32 x | BigEndian => x end.
Definition be32toh (host : endian) (x : Z) : Z := htobe32 host x.
Definition htole32 (host : endian) (x : Z) : Z :=
  match host with LittleEndian => x | BigEndian => bswap32 x end.
Definition le32toh (host : endian) (x : Z) : Z := htole32 host x.

(** ** The portable branch of the doubling functions *)

(** The address of [V[i]] for [uint32_t *V]. *)
Definition idx (V : addr) (i : nat) : addr := (V + 4 * i)%nat.

Module Portable.

(** [((~(V3 & 0x01)) + 1) & 0xE1000000] *)
Definition dbl_mask (V3 : Z) : Z :=
  Z.land (U32.add (U32.not (Z.land V3 0x01)) 1) 0xE1000000.

(** [((~(V0 >> 31)) + 1) & 0x00000087] *)
Definition dblEAX_mask (V0 : Z) : Z :=
  Z.land (U32.add (U32.not (U32.shr V0 31)) 1) 0x00000087.

(** [((~(V3 >> 31)) + 1) & 0x00000087] *)
Definition dblXTS_mask (V3 : Z) : Z :=
  Z.land (U32.add (U32.not (U32.shr V3 31)) 1) 0x00000087.

(** [GF128::dbl], the code compiled when [__AVR__] is not defined. *)
Definition dbl (host : endian) (V : addr) (m : mem) : mem :=
  let V0 := be32toh host (load32 host m (idx V 0)) in
  let V1 := be32toh host (load32 host m (idx V 1)) in
  let V2 := be32toh host (load32 host m (idx V 2)) in
  let V3 := be32toh host (load32 host m (idx V 3)) in
  let mask := dbl_mask V3 in
  let V3 := Z.lor (U32.shr V3 1) (U32.shl V2 31) in
  let V2 := Z.lor (U32.shr V2 1) (U32.shl V1 31) in
  let V1 := Z.lor (U32.shr V1 1) (U32.shl V0 31) in
  let V0 := Z.lxor (U32.shr V0 1) mask in
  let m := store32 host m (idx V 0) (htobe32 host V0) in
  let m := store32 host m (idx V 1) (htobe32 host V1) in
  let m := store32 host m (idx V 2) (htobe32 host V2) in
  let m := store32 host m (idx V 3) (htobe32 host V3) in
  m.

(** [GF128::dblEAX], the code compiled when [__AVR__] is not defined. *)
Definition dblEAX (host : endian) (V : addr) (m : mem) : mem :=
  let V0 := be32toh host (load32 host m (idx V 0)) in
  let V1 := be32toh host (load32 host m (idx V 1)) in
  let V2 := be32toh host (load32 host m (idx V 2)) in
  let V3 := be32toh host (load32 host m (idx V 3)) in
  let mask := dblEAX_mask V0 in
  let V0 := Z.lor (U32.shl V0 1) (U32.shr V1 31) in
  let V1 := Z.lor (U32.shl V1 1) (U32.shr V2 31) in
  let V2 := Z.lor (U32.shl V2 1) (U32.shr V3 31) in
  let V3 := Z.lxor (U32.shl V3 1) mask in
  let m := store32 host m (idx V 0) (htobe32 host V0) in
  let m := store32 host m (idx V 1) (htobe32 host V1) in
  let m := store32 host m (idx V 2) (htobe32 host V2) in
  let m := store32 host m (idx V 3) (htobe32 host V3) in
  m.

(** [GF128::dblXTS], the code compiled when [__AVR__] is not defined. *)
Definition dblXTS (host : endian) (V : addr) (m : mem) : mem :=
  let V0 := le32toh host (load32 host m (idx V 0)) in
  let V1 := le32toh host (load32 host m (idx V 1)) in
  let V2 := le32toh host (load32 host m (idx V 2)) in
  let V3 := le32toh host (load32 host m (idx V 3)) in
  let mask := dblXTS_mask V3 in
  let V3 := Z.lor (U32.shl V3 1) (U32.shr V2 31) in
  let V2 := Z.lor (U32.shl V2 1) (U32.shr V1 31) in
  let V1 := Z.lor (U32.shl V1 1) (U32.shr V0 31) in
  let V0 := Z.lxor (U32.shl V0 1) mask in
  let m := store32 host m (idx V 0) (htole32 host V0) in
  let m := store32 host m (idx V 1) (htole32 host V1) in
  let m := store32 host m (idx V 2) (htole32 host V2) in
  let m := store32 host m (idx V 3) (htole32 host V3) in
  m.

End Portable.

(** ** The AVR branch: inline assembly

    The assembly blocks use the registers [r16] to [r20], the register
    [__zero_reg__] (which always holds 0), the carry flag and the pointer
    register [Z], which holds [V] throughout.  No instruction of the blocks
    reads another flag than the carry, so the carry is the only flag kept. *)

Module AVR.

Inductive reg := r16 | r17 | r18 | r19 | r20 | zero_reg.

Definition reg_eqb (a b : reg) : bool :=
  match a, b with
  | r16, r16 | r17, r17 | r18, r18 | r19, r19 | r20, r20
  | zero_reg, zero_reg => true
  | _, _ => false
  end.

Record cpu := mkCpu { regs : reg -> byte; carry : bool; ram : mem }.

Definition get (c : cpu) (r : reg) : Z :=
  match r with
  | zero_reg => 0
  | _ => byte.unsigned (regs c r)
  end.

(** Write the low 8 bits of [v] to [r] and set the carry to [cf]. *)
Definition set (c : cpu) (r : reg) (v : Z) (cf : bool) : cpu :=
  mkCpu (fun x => if reg_eqb x r then byte.of_Z v else regs c x) cf (ram c).

Inductive instr :=
| ld (rd : reg) (q : nat)      (* [ld rd,Z] and [ldd rd,Z+q] *)
| st (q : nat) (rr : reg)      (* [st Z,rr] and [std Z+q,rr] *)
| lsr (rd : reg)
| ror (rd : reg)
| lsl (rd : reg)
| rol (rd : reg)
| mov (rd rr : reg)
| sbc (rd rr : reg)
| andi (rd : reg) (K : Z)
| eor (rd rr : reg).

Definition bit (b : bool) : Z := if b then 1 else 0.

(** One instruction, with the pointer register [Z] holding [ptr]. *)
Definition step (ptr : addr) (i : instr) (c : cpu) : cpu :=
  match i with
  | ld rd q => set c rd (byte.unsigned (ram c (ptr + q)%nat)) (carry c)
  | st q rr =>
      mkCpu (regs c) (carry c) (store8 (ram c) (ptr + q)%nat (byte.of_Z (get c rr)))
  | lsr rd =>
      set c rd (Z.shiftr (get c rd) 1) (Z.testbit (get c rd) 0)
  | ror rd =>
      set c rd (Z.lor (Z.shiftr (get c rd) 1) (Z.shiftl (bit (carry c)) 7))
        (Z.testbit (get c rd) 0)
  | lsl rd =>
      set c rd (Z.shiftl (get c rd) 1) (Z.testbit (get c rd) 7)
  | rol rd =>
      set c rd (Z.lor (Z.shiftl (get c rd) 1) (bit (carry c)))
        (Z.testbit (get c rd) 7)
  | mov rd rr => set c rd (get c rr) (carry c)
  | sbc rd rr =>
      set c rd (get c rd - get c rr - bit (carry c))
        (get c rd <? get c rr + bit (carry c))
  | andi rd K => set c rd (Z.land (get c rd) K) (carry c)
  | eor rd rr => set c rd (Z.lxor (get c rd) (get c rr)) (carry c)
  end.

Definition run (ptr : addr) (p : list instr) (c : cpu) : cpu :=
  fold_left (fun c i => step ptr i c) p c.

(** The assembly block of [GF128::dbl]. *)
Definition dbl_code : list instr :=
  [ ld r16 0; ld r17 1; ld r18 2; ld r19 3;
    lsr r16; ror r17; ror r18; ror r19;
    st 1 r17; st 2 r18; st 3 r19;
    ld r17 4; ld r18 5; ld r19 6; ld r20 7;
    ror r17; ror r18; ror r19; ror r20;
    st 4 r17; st 5 r18; st 6 r19; st 7 r20;
    ld r17 8; ld r18 9; ld r19 10; ld r20 11;
    ror r17; ror r18; ror r19; ror r20;
    st 8 r17; st 9 r18; st 10 r19; st 11 r20;
    ld r17 12; ld r18 13; ld r19 14; ld r20 15;
    ror r17; ror r18; ror r19; ror r20;
    st 12 r17; st 13 r18; st 14 r19; st 15 r20;
    mov r17 zero_reg; sbc r17 zero_reg; andi r17 0xE1; eor r16 r17;
    st 0 r16 ].

(** The assembly block of [GF128::dblEAX]. *)
Definition dblEAX_code : list instr :=
  [ ld r16 15; ld r17 14; ld r18 13; ld r19 12;
    lsl r16; rol r17; rol r18; rol r19;
    st 14 r17; st 13 r18; st 12 r19;
    ld r17 11; ld r18 10; ld r19 9; ld r20 8;
    rol r17; rol r18; rol r19; rol r20;
    st 11 r17; st 10 r18; st 9 r19; st 8 r20;
    ld r17 7; ld r18 6; ld r19 5; ld r20 4;
    rol r17; rol r18; rol r19; rol r20;
    st 7 r17; st 6 r18; st 5 r19; st 4 r20;
    ld r17 3; ld r18 2; ld r19 1; ld r20 0;
    rol r17; rol r18; rol r19; rol r20;
    st 3 r17; st 2 r18; st 1 r19; st 0 r20;
    mov r17 zero_reg; sbc r17 zero_reg; andi r17 0x87; eor r16 r17;
    st 15 r16 ].

(** The assembly block of [GF128::dblXTS]. *)
Definition dblXTS_code : list instr :=
  [ ld r16 0; ld r17 1; ld r18 2; ld r19 3;
    lsl r16; rol r17; rol r18; rol r19;
    st 1 r17; st 2 r18; st 3 r19;
    ld r17 4; ld r18 5; ld r19 6; ld r20 7;
    rol r17; rol r18; rol r19; rol r20;
    st 4 r17; st 5 r18; st 6 r19; st 7 r20;
    ld r17 8; ld r18 9; ld r19 10; ld r20 11;
    rol r17; rol r18; rol r19; rol r20;
    st 8 r17; st 9 r18; st 10 r19; st 11 r20;
    ld r17 12; ld r18 13; ld r19 14; ld r20 15;
    rol r17; rol r18; rol r19; rol r20;
    st 12 r17; st 13 r18; st 14 r19; st 15 r20;
    mov r17 zero_reg; sbc r17 zero_reg; andi r17 0x87; eor r16 r17;
    st 0 r16 ].

(** The state in which a block is entered: the registers it clobbers
    and the carry hold whatever the caller left there. *)
Definition enter (junk : reg -> byte) (cf : bool) (m : mem) : cpu :=
  mkCpu junk cf m.

(** The memory a block leaves behind. *)
Definition exec (p : list instr) (junk : reg -> byte) (cf : bool)
    (V : addr) (m : mem) : mem :=
  ram (run V p (enter junk cf m)).

(** Registers that hold zero, for the examples. *)
Definition cleared : reg -> byte := fun _ => Byte.x00.

(** The block [p] accesses the memory at [Z+q] for [q < n] only. *)
Definition in_window (n : nat) (p : list instr) : bool :=
  forallb (fun i => match i with
                    | ld _ q | st q _ => Nat.ltb q n
                    | _ => true
                    end) p.

(** [c] and [c'] hold the same registers and carry, and the [n] bytes at
    [ptr] in [c] are the [n] bytes at 0 in [c']. *)
Definition same_window (n : nat) (ptr : addr) (c c' : cpu) : Prop :=
  (forall r, regs c r = regs c' r) /\
  carry c = carry c' /\
  (forall q, (q < n)%nat -> ram c (ptr + q)%nat = ram c' q).

(** The value of [r17] once the mask has been computed, that is after
    all of the block but its last two instructions. *)
Definition mask_of (ptr : addr) (p : list instr) (c : cpu) : Z :=
  get (run ptr (firstn (length p - 2) p) c) r17.

End AVR.

(** The chains of rotations of the assembly blocks, on byte strings. *)

(** Rotating a byte string right by one bit through the carry, from the
    first byte to the last. *)
Fixpoint ror_bytes (c : bool) (l : list byte) : list byte :=
  match l with
  | [] => []
  | b :: t =>
      byte.of_Z (Z.lor (Z.shiftr (byte.unsigned b) 1) (Z.shiftl (AVR.bit c) 7))
      :: ror_bytes (Z.testbit (byte.unsigned b) 0) t
  end.

(** Rotating a byte string left by one bit through the carry, from the
    first byte to the last. *)
Fixpoint rol_bytes (c : bool) (l : list byte) : list byte :=
  match l with
  | [] => []
  | b :: t =>
      byte.of_Z (Z.lor (Z.shiftl (byte.unsigned b) 1) (AVR.bit c))
      :: rol_bytes (Z.testbit (byte.unsigned b) 7) t
  end.

(** ** GF128 *)

(** What the preprocessor selects: the AVR assembly, entered with the
    given contents of the clobbered registers and of the carry, or the
    portable code on a host of the given byte order
    ([CRYPTO_LITTLE_ENDIAN] is defined on little-endian hosts). *)
Inductive target :=
| Avr (junk : AVR.reg -> byte) (cf : bool)
| Host (host : endian).

Module GF128.

Definition dbl (t : target) (V : addr) (m : mem) : mem :=
  match t with
  | Avr junk cf => AVR.exec AVR.dbl_code junk cf V m
  | Host host => Portable.dbl host V m
  end.

Definition dblEAX (t : target) (V : addr) (m : mem) : mem :=
  match t with
  | Avr junk cf => AVR.exec AVR.dblEAX_code junk cf V m
  | Host host => Portable.dblEAX host V m
  end.

Definition dblXTS (t : target) (V : addr) (m : mem) : mem :=
  match t with
  | Avr junk cf => AVR.exec AVR.dblXTS_code junk cf V m
  | Host host => Portable.dblXTS host V m
  end.

(** [GF128::mulInit] *)
Definition mulInit (t : target) (H key : addr) (m : mem) : mem :=
  match t with
  | Avr _ _ => memcpy m H key 16
  | Host host =>
      let m := memcpy m H key 16 in
      match host with
      | LittleEndian =>
          let m := store32 host m (idx H 0) (be32toh host (load32 host m (idx H 0))) in
          let m := store32 host m (idx H 1) (be32toh host (load32 host m (idx H 1))) in
          let m := store32 host m (idx H 2) (be32toh host (load32 host m (idx H 2))) in
          let m := store32 host m (idx H 3) (be32toh host (load32 host m (idx H 3))) in
          m
      | BigEndian => m
      end
  end.

Section Accelerator.

(** The multiplication of the external accelerator: the 16 bytes it
    produces from two operands of 16 bytes. *)
Variable multiply : list byte -> list byte -> list byte.

(** [ECCX08.aesMultiply(slot, input, h, result)]: the product of the
    16 bytes at [input] and the 16 bytes at [h] is stored at
    [result]. *)
Definition aesMultiply (slot : Z) (input h result : addr) (m : mem) : mem :=
  write m result (firstn 16 (multiply (read m input 16) (read m h 16))).

(** The three local arrays of [GF128::mul], in the stack frame at [sp]. *)
Definition frame_h (sp : addr) : addr := sp.
Definition frame_input (sp : addr) : addr := (sp + 16)%nat.
Definition frame_result (sp : addr) : addr := (sp + 32)%nat.
Definition frame_size : nat := 48.

(** [GF128::mul], called with its stack frame at [sp]. *)
Definition mul (sp : addr) (Y H : addr) (m : mem) : mem :=
  let h := frame_h sp in
  let input := frame_input sp in
  let result := frame_result sp in
  let m := memcpy m h H 16 in
  let m := memcpy m input Y 16 in
  let m := aesMultiply 0 input h result m in
  let m := memcpy m result Y 16 in
  m.

End Accelerator.

End GF128.

(** ** Field elements as numbers

    The reading of a buffer the specification gives: 128-bit values in
    big-endian or little-endian byte order, and the two doubling
    operations on values. *)

(** The word [i] of a buffer of big-endian words. *)
Definition be_word (b : list byte) (i : nat) : Z :=
  be_value (firstn 4 (skipn (4 * i) b)).

(** The word [i] of a buffer of little-endian words. *)
Definition le_word (b : list byte) (i : nat) : Z :=
  le_value (firstn 4 (skipn (4 * i) b)).

(** The 128-bit value of four 32-bit words, the first one most
    significant. *)
Definition join_words (w0 w1 w2 w3 : Z) : Z :=
  Z.lor (Z.shiftl w0 96) (Z.lor (Z.shiftl w1 64) (Z.lor (Z.shiftl w2 32) w3)).

(** Byte-wise XOR of two buffers. *)
Fixpoint xor_bytes (a b : list byte) : list byte :=
  match a, b with
  | x :: a', y :: b' => byte.xor x y :: xor_bytes a' b'
  | _, _ => []
  end.

(** Shift right by one bit; reduce by 0xE1 at the top when a bit is
    shifted out. *)
Definition double_right (v : Z) : Z :=
  Z.lxor (Z.shiftr v 1) (if Z.testbit v 0 then Z.shiftl 0xE1 120 else 0).

(** Shift left by one bit within 128 bits; reduce by 0x87 at the bottom
    when a bit is shifted out. *)
Definition double_left (v : Z) : Z :=
  Z.lxor (Z.shiftl v 1 mod 2 ^ 128) (if Z.testbit v 127 then 0x87 else 0).

(** Modelled from the spec: the multiplication of the external accelerator
    is not part of the sources.  This is the product in GF(2^128) under the
    conventions of NIST SP 800-38D, which the specification requires of it:
    the bits of the first operand are taken from the most significant one,
    and the second operand is doubled at every step. *)
Fixpoint gf128_mul_loop (n : nat) (x z v : Z) : Z :=
  match n with
  | O => z
  | S k =>
      gf128_mul_loop k x
        (if Z.testbit x (Z.of_nat k) then Z.lxor z v else z)
        (double_right v)
  end.

Definition gf128_multiply (a b : list byte) : list byte :=
  be_bytes 16 (gf128_mul_loop 128 (be_value a) 0 (be_value b)).

(** Running an in-place operation on a buffer of 16 bytes. *)
Definition on_buffer (f : addr -> mem -> mem) (b : list byte) : list byte :=
  read (f 0%nat (write zero 0%nat b)) 0%nat 16.

Definition bytes (l : list Z) : list byte := map byte.of_Z l.

(** The blocks of the known-answer tests. *)
Definition top_bit_block : list byte := bytes [0x80; 0; 0; 0; 0; 0; 0; 0; 0; 0; 0; 0; 0; 0; 0; 0].
Definition low_bit_block : list byte := bytes [0; 0; 0; 0; 0; 0; 0; 0; 0; 0; 0; 0; 0; 0; 0; 0x01].
Definition e1_block : list byte := bytes [0xE1; 0; 0; 0; 0; 0; 0; 0; 0; 0; 0; 0; 0; 0; 0; 0].
Definition x40_block : list byte := bytes [0x40; 0; 0; 0; 0; 0; 0; 0; 0; 0; 0; 0; 0; 0; 0; 0].
Definition zero_block : list byte := repeat Byte.x00 16.

(** A block with both end bits set, and what the three functions make
    of it. *)
Definition sample_block : list byte :=
  bytes [0x80; 1; 2; 3; 4; 5; 6; 7; 8; 9; 10; 11; 12; 13; 14; 0x81].
Definition sample_dbl : list byte :=
  bytes [0xA1; 0x00; 0x81; 0x01; 0x82; 0x02; 0x83; 0x03;
         0x84; 0x04; 0x85; 0x05; 0x86; 0x06; 0x87; 0x40].
Definition sample_dblEAX : list byte :=
  bytes [0x00; 0x02; 0x04; 0x06; 0x08; 0x0A; 0x0C; 0x0E;
         0x10; 0x12; 0x14; 0x16; 0x18; 0x1A; 0x1D; 0x85].
Definition sample_dblXTS : list byte :=
  bytes [0x87; 0x03; 0x04; 0x06; 0x08; 0x0A; 0x0C; 0x0E;
         0x10; 0x12; 0x14; 0x16; 0x18; 0x1A; 0x1C; 0x02].

(** The targets the examples run on. *)
Definition sample_targets : list target :=
  [Avr AVR.cleared false; Host LittleEndian; Host BigEndian].

(** A product of NIST SP 800-38D (test case 2 of the GCM specification):
    the hash key, the block it is multiplied with, and their product. *)
Definition nist_H : list byte :=
  bytes [0x66; 0xe9; 0x4b; 0xd4; 0xef; 0x8a; 0x2c; 0x3b;
         0x88; 0x4c; 0xfa; 0x59; 0xca; 0x34; 0x2b; 0x2e].
Definition nist_C : list byte :=
  bytes [0x03; 0x88; 0xda; 0xce; 0x60; 0xb6; 0xa3; 0x92;
         0xf3; 0x28; 0xc2; 0xb9; 0x71; 0xb2; 0xfe; 0x78].
Definition nist_CH : list byte :=
  bytes [0x5e; 0x2e; 0xc7; 0x46; 0x91; 0x70; 0x62; 0x88;
         0x2c; 0x85; 0xb0; 0x68; 0x53; 0x53; 0xde; 0xb7].

(** ** Mirror images

    The value whose bit [i] is bit [n - 1 - i] of [v], for [i < n]. *)
Fixpoint mirror (n : nat) (v : Z) : Z :=
  match n with
  | O => 0
  | S k =>
      Z.lor (Z.shiftl (if Z.testbit v 0 then 1 else 0) (Z.of_nat k))
        (mirror k (Z.shiftr v 1))
  end.

(** The block with the 128 bits of [b] in the opposite order. *)
Definition mirror_block (b : list byte) : list byte :=
  be_bytes 16 (mirror 128 (be_value b)).

(** The block with the bits of every byte of [b] in the opposite order,
    the bytes staying in place. *)
Definition flip_bytes (b : list byte) : list byte := rev (mirror_block b).

(** A memory for the examples of the multiplication: the block at 48,
    a multiplier state at 64 and the key at 80. *)
Definition mul_sample_memory : mem :=
  write (write (write zero 48%nat nist_C) 64%nat nist_CH) 80%nat nist_H.

(** * Proofs *)

(** ** The embedding at work *)

Example dbl_sample :
  map (fun t => on_buffer (GF128.dbl t) sample_block) sample_targets =
  [sample_dbl; sample_dbl; sample_dbl].
Proof. vm_compute. reflexivity. Qed.

Example dblEAX_sample :
  map (fun t => on_buffer (GF128.dblEAX t) sample_block) sample_targets =
  [sample_dblEAX; sample_dblEAX; sample_dblEAX].
Proof. vm_compute. reflexivity. Qed.

Example dblXTS_sample :
  map (fun t => on_buffer (GF128.dblXTS t) sample_block) sample_targets =
  [sample_dblXTS; sample_dblXTS; sample_dblXTS].
Proof. vm_compute. reflexivity. Qed.

Example gf128_multiply_nist : gf128_multiply nist_C nist_H = nist_CH.
Proof. vm_compute. reflexivity. Qed.

(** On a little-endian host [GF128::mulInit] swaps the bytes of each word
    of the key; on the other targets it copies the key. *)
Example mulInit_sample :
  map (fun t => read (GF128.mulInit t 16%nat 0%nat (write zero 0%nat nist_H)) 16%nat 4)
    sample_targets =
  [bytes [0x66; 0xe9; 0x4b; 0xd4]; bytes [0xd4; 0x4b; 0xe9; 0x66];
   bytes [0x66; 0xe9; 0x4b; 0xd4]].
Proof. vm_compute. reflexivity. Qed.

(** ** Memory *)

Lemma store8_same m a b : store8 m a b a = b.
Proof. unfold store8. now rewrite Nat.eqb_refl. Qed.

Lemma store8_other m a b x : x <> a -> store8 m a b x = m x.
Proof. unfold store8. intros H. apply Nat.eqb_neq in H. now rewrite H. Qed.

Lemma write_other bs : forall m a x,
  (x < a \/ a + length bs <= x)%nat -> write m a bs x = m x.
Proof.
  induction bs as [|b t IH]; intros m a x H; simpl in *; [reflexivity|].
  rewrite IH by lia. apply store8_other. lia.
Qed.

Lemma read_ext n : forall m m' a,
  (forall x, (a <= x < a + n)%nat -> m x = m' x) -> read m a n = read m' a n.
Proof.
  induction n as [|n IH]; intros m m' a H; simpl; [reflexivity|].
  f_equal; [apply H; lia | apply IH; intros; apply H; lia].
Qed.

Lemma read_write_same bs : forall m a, read (write m a bs) a (length bs) = bs.
Proof.
  induction bs as [|b t IH]; intros m a; simpl; [reflexivity|].
  f_equal; [|apply IH].
  rewrite write_other by lia. apply store8_same.
Qed.

Lemma read_app n k : forall m a, read m a (n + k) = read m a n ++ read m (a + n)%nat k.
Proof.
  induction n as [|n IH]; intros m a; simpl.
  - now rewrite Nat.add_0_r.
  - rewrite IH. now rewrite Nat.add_succ_r.
Qed.

Lemma read_length n : forall m a, length (read m a n) = n.
Proof. induction n; intros; simpl; [reflexivity | now rewrite IHn]. Qed.

Lemma write_app l1 : forall l2 m a,
  write m a (l1 ++ l2) = write (write m a l1) (a + length l1)%nat l2.
Proof.
  induction l1 as [|b t IH]; intros l2 m a; simpl.
  - now rewrite Nat.add_0_r.
  - rewrite IH. now rewrite Nat.add_succ_r.
Qed.

Lemma memcpy_dst m dst src n : read (memcpy m dst src n) dst n = read m src n.
Proof.
  unfold memcpy. rewrite <- (read_length n m src) at 2. apply read_write_same.
Qed.

(** ** Bit-level reasoning *)

Lemma testbit_shiftl a n i :
  0 <= n -> Z.testbit (Z.shiftl a n) i = (n <=? i) && Z.testbit a (i - n).
Proof.
  intros Hn. destruct (Z.leb_spec n i) as [Hi|Hi].
  - apply Z.shiftl_spec. lia.
  - apply Z.shiftl_spec_low. exact Hi.
Qed.

Lemma testbit_shiftr a n i : Z.testbit (Z.shiftr a n) i = (0 <=? i) && Z.testbit a (i + n).
Proof.
  destruct (Z.leb_spec 0 i) as [Hi|Hi].
  - apply Z.shiftr_spec. exact Hi.
  - apply Z.testbit_neg_r. exact Hi.
Qed.

Lemma testbit_lnot a i : Z.testbit (Z.lnot a) i = (0 <=? i) && negb (Z.testbit a i).
Proof.
  destruct (Z.leb_spec 0 i) as [Hi|Hi].
  - apply Z.lnot_spec. exact Hi.
  - apply Z.testbit_neg_r. exact Hi.
Qed.

Lemma testbit_ones n i : 0 <= n -> Z.testbit (Z.ones n) i = (0 <=? i) && (i <? n).
Proof.
  intros Hn. destruct (Z.leb_spec 0 i) as [Hi|Hi].
  - now apply Z.testbit_ones_nonneg.
  - apply Z.testbit_neg_r. exact Hi.
Qed.

Lemma testbit_if (c : bool) a b i :
  Z.testbit (if c then a else b) i = c && Z.testbit a i || negb c && Z.testbit b i.
Proof. destruct c; cbn [andb orb negb]; [now rewrite orb_false_r|reflexivity]. Qed.

Lemma ltb_true a b : a < b -> (a <? b) = true.
Proof. apply Z.ltb_lt. Qed.

Lemma ltb_false a b : b <= a -> (a <? b) = false.
Proof. apply Z.ltb_ge. Qed.

Lemma leb_true a b : a <= b -> (a <=? b) = true.
Proof. apply Z.leb_le. Qed.

Lemma leb_false a b : b < a -> (a <=? b) = false.
Proof. apply Z.leb_gt. Qed.

Lemma eqb_true a b : a = b -> (a =? b) = true.
Proof. apply Z.eqb_eq. Qed.

Lemma eqb_false a b : a <> b -> (a =? b) = false.
Proof. apply Z.eqb_neq. Qed.

Create Rewrite HintDb bits.
#[local] Hint Rewrite Z.lor_spec Z.land_spec Z.lxor_spec Z.testbit_0_l
  testbit_shiftr testbit_lnot : bits.
#[local] Hint Rewrite testbit_shiftl Z.testbit_mod_pow2 testbit_ones
  using lia : bits.

(** Decide the comparisons of the goal, splitting only where the context
    leaves them open. *)
Ltac split_cmp :=
  repeat match goal with
         | |- context [?a <? ?b] =>
           first [ rewrite (ltb_true a b) by lia
                 | rewrite (ltb_false a b) by lia
                 | destruct (Z.ltb_spec a b) ]
         | |- context [?a <=? ?b] =>
           first [ rewrite (leb_true a b) by lia
                 | rewrite (leb_false a b) by lia
                 | destruct (Z.leb_spec a b) ]
         end.

Ltac split_eqb :=
  repeat match goal with
         | |- context [?a =? ?b] =>
           first [ rewrite (eqb_true a b) by lia
                 | rewrite (eqb_false a b) by lia
                 | destruct (Z.eqb_spec a b) ]
         end.

Ltac drop_neg_bits :=
  repeat match goal with
         | |- context [Z.testbit ?x ?j] => rewrite (Z.testbit_neg_r x j) by lia
         end.

(** Give a name to every bit index that is not a variable, then identify
    the names that stand for the same index. *)
Ltac name_index :=
  match goal with
  | |- context [Z.testbit _ ?j] =>
    tryif is_var j then fail else (let k := fresh "k" in remember j as k)
  end.

Ltac merge_indices :=
  repeat name_index;
  repeat match goal with
         | a : Z, b : Z |- _ =>
           let E := fresh "E" in
           assert (E : a = b) by lia; rewrite E in *; clear E; clear a
         end.

Ltac bits_core :=
  autorewrite with bits; split_cmp; split_eqb; cbn [andb orb negb xorb];
  drop_neg_bits; cbn [andb orb negb xorb];
  try reflexivity; merge_indices; try btauto.

(** Equality of two integers, one bit at a time. *)
Ltac bits := apply Z.bits_inj'; intros ?i ?Hi; bits_core.

Lemma testbit_bit c j : Z.testbit (AVR.bit c) j = (j =? 0) && c.
Proof.
  destruct c; cbn [AVR.bit]; [|now rewrite Z.testbit_0_l, andb_false_r].
  change 1 with (Z.ones 1). destruct (Z.eqb_spec j 0) as [->|H]; [reflexivity|].
  destruct (Z.ltb_spec j 0); [now apply Z.testbit_neg_r|].
  rewrite testbit_ones by lia. split_cmp. reflexivity.
Qed.

#[local] Hint Rewrite testbit_bit testbit_if : bits.

(** Expose the range of every byte of the goal to [bits]. *)
Ltac bound_bytes :=
  repeat match goal with
         | |- context [byte.unsigned ?b] =>
           let x := fresh "x" in
           let E := fresh "E" in
           pose proof (byte.wrap_unsigned b) as E; unfold byte.wrap in E;
           set (x := byte.unsigned b) in *; clearbody x;
           rewrite <- E; clear E
         end.

Ltac mask_consts :=
  change 0x000000FF with (Z.ones 8) in *;
  change 0x0000FF00 with (Z.shiftl (Z.ones 8) 8) in *;
  change 0x00FF0000 with (Z.shiftl (Z.ones 8) 16) in *;
  change 0xFF000000 with (Z.shiftl (Z.ones 8) 24) in *.

Ltac unfold_words :=
  cbv [bswap32 U32.shl U32.shr U32.not U32.add U32.wrap] in *.

(** ** Bytes and values *)

Lemma of_Z_mod_eq x y : x mod 2 ^ 8 = y mod 2 ^ 8 -> byte.of_Z x = byte.of_Z y.
Proof.
  intros H. apply byte.unsigned_inj. rewrite !byte.unsigned_of_Z.
  exact H.
Qed.

Lemma be_value_mod bs : be_value bs mod 2 ^ (8 * Z.of_nat (length bs)) = be_value bs.
Proof.
  induction bs as [|b t IH]; [reflexivity|].
  cbn [be_value length]. generalize dependent (be_value t). intros v IH.
  rewrite <- IH. bound_bytes. bits.
Qed.

(** Expose the range of [be_value t] to [bits]. *)
Ltac bound_value t :=
  let v := fresh "v" in
  let E := fresh "E" in
  pose proof (be_value_mod t) as E;
  set (v := be_value t) in *; clearbody v; rewrite <- E; clear E.

Lemma be_value_range bs : 0 <= be_value bs < 2 ^ (8 * Z.of_nat (length bs)).
Proof. rewrite <- be_value_mod. apply Z.mod_pos_bound. lia. Qed.

Lemma be_value_app l1 l2 :
  be_value (l1 ++ l2) =
  Z.lor (Z.shiftl (be_value l1) (8 * Z.of_nat (length l2))) (be_value l2).
Proof.
  induction l1 as [|b t IH]; cbn [be_value app length].
  - now rewrite Z.shiftl_0_l.
  - rewrite IH, length_app. bits.
Qed.

Lemma be_bytes_length n v : length (be_bytes n v) = n.
Proof. induction n; cbn; congruence. Qed.

Lemma be_bytes_mod n : forall v k,
  (n <= k)%nat -> be_bytes n (v mod 2 ^ (8 * Z.of_nat k)) = be_bytes n v.
Proof.
  induction n as [|n IH]; intros v k Hk; cbn [be_bytes]; [reflexivity|].
  f_equal; [|apply IH; lia].
  apply of_Z_mod_eq. bits.
Qed.

Lemma be_bytes_value bs : be_bytes (length bs) (be_value bs) = bs.
Proof.
  induction bs as [|b t IH]; [reflexivity|].
  cbn [be_value length be_bytes]. f_equal.
  - rewrite <- (byte.of_Z_unsigned b) at 2. apply of_Z_mod_eq.
    bound_value t. bits.
  - transitivity (be_bytes (length t) (be_value t)); [|exact IH].
    rewrite <- (be_bytes_mod _ (Z.lor _ _) (length t)) by lia.
    f_equal. clear IH. bound_value t. bits.
Qed.

Lemma be_value_bytes n : forall v, be_value (be_bytes n v) = v mod 2 ^ (8 * Z.of_nat n).
Proof.
  induction n as [|n IH]; intros v.
  - cbn. now rewrite Z.mod_1_r.
  - cbn [be_bytes be_value]. rewrite IH, be_bytes_length, byte.unsigned_of_Z.
    unfold byte.wrap. bits.
Qed.

Lemma be_bytes_app n k : forall v,
  be_bytes (n + k) v = be_bytes n (Z.shiftr v (8 * Z.of_nat k)) ++ be_bytes k v.
Proof.
  induction n as [|n IH]; intros v; cbn [be_bytes Nat.add app]; [reflexivity|].
  rewrite IH. f_equal. apply of_Z_mod_eq. bits.
Qed.

Lemma xor_bytes_length a : forall b,
  length a = length b -> length (xor_bytes a b) = length a.
Proof.
  induction a as [|x a IH]; intros [|y b] H; cbn in *; try congruence.
  now rewrite IH by congruence.
Qed.

Lemma be_value_xor a : forall b,
  length a = length b ->
  be_value (xor_bytes a b) = Z.lxor (be_value a) (be_value b).
Proof.
  induction a as [|x a IH]; intros [|y b] H; cbn in H; try discriminate;
    [reflexivity|].
  cbn [xor_bytes be_value]. injection H as H.
  rewrite IH, xor_bytes_length, <- H by assumption.
  unfold byte.xor. rewrite byte.unsigned_of_Z. unfold byte.wrap.
  pose proof (be_value_mod b) as Eb. rewrite <- H in Eb.
  bound_value a. set (vb := be_value b) in *. clearbody vb. rewrite <- Eb.
  bound_bytes. bits.
Qed.

Lemma be_bytes_xor n : forall x y,
  be_bytes n (Z.lxor x y) = xor_bytes (be_bytes n x) (be_bytes n y).
Proof.
  induction n as [|n IH]; intros x y; cbn [be_bytes xor_bytes]; [reflexivity|].
  rewrite IH. f_equal. unfold byte.xor. apply of_Z_mod_eq.
  rewrite !byte.unsigned_of_Z. unfold byte.wrap. bits.
Qed.

Lemma xor_bytes_app a1 : forall b1 a2 b2,
  length a1 = length b1 ->
  xor_bytes (a1 ++ a2) (b1 ++ b2) = xor_bytes a1 b1 ++ xor_bytes a2 b2.
Proof.
  induction a1 as [|x a IH]; intros [|y b] a2 b2 H; cbn in *; try congruence.
  now rewrite IH by congruence.
Qed.

Lemma xor_bytes_rev a b :
  length a = length b -> xor_bytes (rev a) (rev b) = rev (xor_bytes a b).
Proof.
  revert b. induction a as [|x a IH]; intros [|y b] H; cbn in *; try congruence.
  rewrite xor_bytes_app by (rewrite !length_rev; congruence).
  now rewrite IH by congruence.
Qed.

(** Unfold the codec on lists and sizes that are known. *)
Ltac norm_idx :=
  repeat match goal with
         | |- context [8 * Z.of_nat ?n] =>
           let v := eval cbv in (8 * Z.of_nat n) in
           change (8 * Z.of_nat n) with v
         end.

Ltac eval_codec :=
  cbn [be_value le_value be_bytes le_bytes rev app length];
  norm_idx; rewrite ?Z.shiftl_0_r, ?Z.shiftr_0_r, ?Z.lor_0_r.

Lemma bswap32_le_value l : length l = 4%nat -> bswap32 (le_value l) = be_value l.
Proof.
  destruct l as [|b0 [|b1 [|b2 [|b3 [|]]]]]; try discriminate. intros _.
  eval_codec. unfold_words. mask_consts. bound_bytes. bits.
Qed.

Lemma le_bytes_bswap32 w : le_bytes 4 (bswap32 w) = be_bytes 4 w.
Proof.
  eval_codec. unfold_words. mask_consts.
  repeat apply (f_equal2 (@cons byte)); try reflexivity; apply of_Z_mod_eq; bits.
Qed.

Lemma bswap32_be_value l : length l = 4%nat -> bswap32 (be_value l) = le_value l.
Proof.
  destruct l as [|b0 [|b1 [|b2 [|b3 [|]]]]]; try discriminate. intros _.
  eval_codec. unfold_words. mask_consts. bound_bytes. bits.
Qed.

Lemma be_bytes_bswap32 w : be_bytes 4 (bswap32 w) = le_bytes 4 w.
Proof.
  eval_codec. unfold_words. mask_consts.
  repeat apply (f_equal2 (@cons byte)); try reflexivity; apply of_Z_mod_eq; bits.
Qed.

(** ** Words in memory: the byte order of the host does not matter *)

Lemma load_be host m a : be32toh host (load32 host m a) = be_value (read m a 4).
Proof.
  destruct host; cbn [be32toh htobe32 load32]; [|reflexivity].
  apply bswap32_le_value, read_length.
Qed.

Lemma load_le host m a : le32toh host (load32 host m a) = le_value (read m a 4).
Proof.
  destruct host; cbn [le32toh htole32 load32]; [reflexivity|].
  apply bswap32_be_value, read_length.
Qed.

Lemma store_be host m a w : store32 host m a (htobe32 host w) = write m a (be_bytes 4 w).
Proof.
  destruct host; cbn [htobe32 store32]; [|reflexivity].
  now rewrite le_bytes_bswap32.
Qed.

Lemma store_le host m a w : store32 host m a (htole32 host w) = write m a (le_bytes 4 w).
Proof.
  destruct host; cbn [htole32 store32]; [reflexivity|].
  now rewrite be_bytes_bswap32.
Qed.

(** ** A buffer of 16 bytes as four words *)

Lemma read16_words m V :
  read m V 16 =
  read m (idx V 0) 4 ++ read m (idx V 1) 4 ++ read m (idx V 2) 4 ++ read m (idx V 3) 4.
Proof.
  unfold idx. change 16%nat with (4 + (4 + (4 + 4)))%nat.
  rewrite !read_app.
  replace (V + 4 * 0)%nat with V by lia.
  replace (V + 4 * 1)%nat with (V + 4)%nat by lia.
  replace (V + 4 * 2)%nat with (V + 4 + 4)%nat by lia.
  replace (V + 4 * 3)%nat with (V + 4 + 4 + 4)%nat by lia.
  reflexivity.
Qed.

Lemma write16_words m V l0 l1 l2 l3 :
  length l0 = 4%nat -> length l1 = 4%nat -> length l2 = 4%nat ->
  write (write (write (write m (idx V 0) l0) (idx V 1) l1) (idx V 2) l2) (idx V 3) l3 =
  write m V (l0 ++ l1 ++ l2 ++ l3).
Proof.
  intros H0 H1 H2. rewrite !write_app, H0, H1, H2. unfold idx.
  replace (V + 4 * 0)%nat with V by lia.
  replace (V + 4 * 1)%nat with (V + 4)%nat by lia.
  replace (V + 4 * 2)%nat with (V + 4 + 4)%nat by lia.
  replace (V + 4 * 3)%nat with (V + 4 + 4 + 4)%nat by lia.
  reflexivity.
Qed.

Lemma be_value_words l0 l1 l2 l3 :
  length l1 = 4%nat -> length l2 = 4%nat -> length l3 = 4%nat ->
  be_value (l0 ++ l1 ++ l2 ++ l3) =
  Z.lor (Z.shiftl (be_value l0) 96)
    (Z.lor (Z.shiftl (be_value l1) 64)
       (Z.lor (Z.shiftl (be_value l2) 32) (be_value l3))).
Proof.
  intros H1 H2 H3. rewrite !be_value_app, !length_app, H1, H2, H3.
  norm_idx. reflexivity.
Qed.

Lemma le_value_words l0 l1 l2 l3 :
  length l0 = 4%nat -> length l1 = 4%nat -> length l2 = 4%nat ->
  le_value (l0 ++ l1 ++ l2 ++ l3) =
  Z.lor (Z.shiftl (le_value l3) 96)
    (Z.lor (Z.shiftl (le_value l2) 64)
       (Z.lor (Z.shiftl (le_value l1) 32) (le_value l0))).
Proof.
  intros H0 H1 H2. unfold le_value. rewrite !rev_app_distr, <- !app_assoc.
  apply be_value_words; now rewrite length_rev.
Qed.

Lemma be_bytes_words x :
  be_bytes 16 x =
  be_bytes 4 (Z.shiftr x 96) ++ be_bytes 4 (Z.shiftr x 64) ++
  be_bytes 4 (Z.shiftr x 32) ++ be_bytes 4 x.
Proof.
  change (be_bytes 16 x) with (be_bytes (4 + 12) x). rewrite be_bytes_app.
  change (be_bytes 12 x) with (be_bytes (4 + 8) x). rewrite be_bytes_app.
  change (be_bytes 8 x) with (be_bytes (4 + 4) x). rewrite be_bytes_app.
  reflexivity.
Qed.

Lemma be_bytes4_eq a b : a mod 2 ^ 32 = b mod 2 ^ 32 -> be_bytes 4 a = be_bytes 4 b.
Proof.
  intros H. rewrite <- (be_bytes_mod 4 a 4), <- (be_bytes_mod 4 b 4) by lia.
  norm_idx. now rewrite H.
Qed.

(** ** The reduction masks *)

Lemma land_1 x : Z.land x 1 = if Z.testbit x 0 then 1 else 0.
Proof.
  destruct (Z.testbit x 0) eqn:E; change 1 with (Z.ones 1);
    apply Z.bits_inj'; intros i Hi; autorewrite with bits; split_cmp;
    rewrite ?andb_false_r; try reflexivity;
    replace i with 0 by lia; now rewrite E.
Qed.

Lemma shiftr_31 x :
  0 <= x < 2 ^ 32 -> Z.shiftr x 31 = if Z.testbit x 31 then 1 else 0.
Proof.
  intros Hx. rewrite <- (Z.mod_small x (2 ^ 32)) by exact Hx.
  destruct (Z.testbit (x mod 2 ^ 32) 31) eqn:E; change 1 with (Z.ones 1);
    rewrite Z.testbit_mod_pow2 in E by lia;
    change (31 <? 32) with true in E; cbn [andb] in E;
    apply Z.bits_inj'; intros i Hi; autorewrite with bits; split_cmp;
    rewrite ?andb_false_r; cbn [andb]; try reflexivity;
    replace (i + 31) with 31 by lia; now rewrite E.
Qed.

Lemma dbl_mask_eq V3 :
  Portable.dbl_mask V3 = if Z.testbit V3 0 then 0xE1000000 else 0.
Proof.
  unfold Portable.dbl_mask. rewrite land_1. now destruct (Z.testbit V3 0).
Qed.

Lemma dblEAX_mask_eq V0 :
  0 <= V0 < 2 ^ 32 ->
  Portable.dblEAX_mask V0 = if Z.testbit V0 31 then 0x87 else 0.
Proof.
  intros H. unfold Portable.dblEAX_mask, U32.shr. rewrite shiftr_31 by exact H.
  now destruct (Z.testbit V0 31).
Qed.

Lemma dblXTS_mask_eq V3 :
  0 <= V3 < 2 ^ 32 ->
  Portable.dblXTS_mask V3 = if Z.testbit V3 31 then 0x87 else 0.
Proof. apply dblEAX_mask_eq. Qed.

(** ** A buffer of 16 bytes as four words *)

Lemma read_slice m a j k n :
  (j + k <= n)%nat -> firstn k (skipn j (read m a n)) = read m (a + j)%nat k.
Proof.
  intros H. replace n with (j + (k + (n - j - k)))%nat by lia.
  rewrite !read_app.
  rewrite skipn_app, read_length, Nat.sub_diag, skipn_all2 by (rewrite read_length; lia).
  cbn [skipn app].
  rewrite firstn_app, read_length, Nat.sub_diag, firstn_all2 by (rewrite read_length; lia).
  cbn [firstn]. apply app_nil_r.
Qed.

Lemma be_word_read m V i :
  (i < 4)%nat -> be_word (read m V 16) i = be_value (read m (idx V i) 4).
Proof. intros H. unfold be_word, idx. now rewrite read_slice by lia. Qed.

Lemma le_word_read m V i :
  (i < 4)%nat -> le_word (read m V 16) i = le_value (read m (idx V i) 4).
Proof. intros H. unfold le_word, idx. now rewrite read_slice by lia. Qed.

Lemma be_word_range b i : 0 <= be_word b i < 2 ^ 32.
Proof.
  unfold be_word. pose proof (be_value_range (firstn 4 (skipn (4 * i) b))) as H.
  pose proof (firstn_le_length 4 (skipn (4 * i) b)) as Hl.
  assert (2 ^ (8 * Z.of_nat (length (firstn 4 (skipn (4 * i) b)))) <= 2 ^ 32).
  { apply Z.pow_le_mono_r; lia. }
  lia.
Qed.

Lemma le_word_range b i : 0 <= le_word b i < 2 ^ 32.
Proof.
  unfold le_word, le_value.
  pose proof (be_value_range (rev (firstn 4 (skipn (4 * i) b)))) as H.
  rewrite length_rev in H.
  pose proof (firstn_le_length 4 (skipn (4 * i) b)) as Hl.
  assert (2 ^ (8 * Z.of_nat (length (firstn 4 (skipn (4 * i) b)))) <= 2 ^ 32).
  { apply Z.pow_le_mono_r; lia. }
  lia.
Qed.

Lemma be_value_read16 m V :
  be_value (read m V 16) =
  join_words (be_word (read m V 16) 0) (be_word (read m V 16) 1)
    (be_word (read m V 16) 2) (be_word (read m V 16) 3).
Proof.
  rewrite !be_word_read by lia. rewrite read16_words at 1.
  apply be_value_words; apply read_length.
Qed.

Lemma le_value_read16 m V :
  le_value (read m V 16) =
  join_words (le_word (read m V 16) 3) (le_word (read m V 16) 2)
    (le_word (read m V 16) 1) (le_word (read m V 16) 0).
Proof.
  rewrite !le_word_read by lia. rewrite read16_words at 1.
  apply le_value_words; apply read_length.
Qed.

(** ** The portable branch, word by word *)

Lemma portable_dbl_words host V m :
  let b := read m V 16 in
  Portable.dbl host V m =
  write m V
    (be_bytes 4 (Z.lxor (U32.shr (be_word b 0) 1) (Portable.dbl_mask (be_word b 3))) ++
     be_bytes 4 (Z.lor (U32.shr (be_word b 1) 1) (U32.shl (be_word b 0) 31)) ++
     be_bytes 4 (Z.lor (U32.shr (be_word b 2) 1) (U32.shl (be_word b 1) 31)) ++
     be_bytes 4 (Z.lor (U32.shr (be_word b 3) 1) (U32.shl (be_word b 2) 31))).
Proof.
  cbv zeta. rewrite !be_word_read by lia.
  unfold Portable.dbl. cbv zeta. rewrite !load_be, !store_be.
  apply write16_words; apply be_bytes_length.
Qed.

Lemma portable_dblEAX_words host V m :
  let b := read m V 16 in
  Portable.dblEAX host V m =
  write m V
    (be_bytes 4 (Z.lor (U32.shl (be_word b 0) 1) (U32.shr (be_word b 1) 31)) ++
     be_bytes 4 (Z.lor (U32.shl (be_word b 1) 1) (U32.shr (be_word b 2) 31)) ++
     be_bytes 4 (Z.lor (U32.shl (be_word b 2) 1) (U32.shr (be_word b 3) 31)) ++
     be_bytes 4 (Z.lxor (U32.shl (be_word b 3) 1) (Portable.dblEAX_mask (be_word b 0)))).
Proof.
  cbv zeta. rewrite !be_word_read by lia.
  unfold Portable.dblEAX. cbv zeta. rewrite !load_be, !store_be.
  apply write16_words; apply be_bytes_length.
Qed.

Lemma portable_dblXTS_words host V m :
  let b := read m V 16 in
  Portable.dblXTS host V m =
  write m V
    (le_bytes 4 (Z.lxor (U32.shl (le_word b 0) 1) (Portable.dblXTS_mask (le_word b 3))) ++
     le_bytes 4 (Z.lor (U32.shl (le_word b 1) 1) (U32.shr (le_word b 0) 31)) ++
     le_bytes 4 (Z.lor (U32.shl (le_word b 2) 1) (U32.shr (le_word b 1) 31)) ++
     le_bytes 4 (Z.lor (U32.shl (le_word b 3) 1) (U32.shr (le_word b 2) 31))).
Proof.
  cbv zeta. rewrite !le_word_read by lia.
  unfold Portable.dblXTS. cbv zeta. rewrite !load_le, !store_le.
  apply write16_words; unfold le_bytes; rewrite length_rev; apply be_bytes_length.
Qed.

(** ** The words of a doubled value *)

Lemma join_words_bit0 w0 w1 w2 w3 :
  Z.testbit (join_words w0 w1 w2 w3) 0 = Z.testbit w3 0.
Proof.
  unfold join_words. autorewrite with bits. drop_neg_bits. reflexivity.
Qed.

Lemma join_words_bit127 w0 w1 w2 w3 :
  0 <= w1 < 2 ^ 32 -> 0 <= w2 < 2 ^ 32 -> 0 <= w3 < 2 ^ 32 ->
  Z.testbit (join_words w0 w1 w2 w3) 127 = Z.testbit w0 31.
Proof.
  intros H1 H2 H3. unfold join_words.
  rewrite <- (Z.mod_small w1 (2 ^ 32) H1), <- (Z.mod_small w2 (2 ^ 32) H2),
    <- (Z.mod_small w3 (2 ^ 32) H3).
  autorewrite with bits. split_cmp. cbn [andb orb].
  rewrite !orb_false_r. reflexivity.
Qed.

Ltac app_eq := repeat apply (f_equal2 (@app byte)).

Section DoubledWords.

Variables w0 w1 w2 w3 : Z.
Hypothesis H0 : 0 <= w0 < 2 ^ 32.
Hypothesis H1 : 0 <= w1 < 2 ^ 32.
Hypothesis H2 : 0 <= w2 < 2 ^ 32.
Hypothesis H3 : 0 <= w3 < 2 ^ 32.

Ltac bound_words :=
  rewrite <- (Z.mod_small w0 (2 ^ 32) H0), <- (Z.mod_small w1 (2 ^ 32) H1),
    <- (Z.mod_small w2 (2 ^ 32) H2), <- (Z.mod_small w3 (2 ^ 32) H3).

Lemma double_right_words :
  be_bytes 16 (double_right (join_words w0 w1 w2 w3)) =
  be_bytes 4 (Z.lxor (U32.shr w0 1) (Portable.dbl_mask w3)) ++
  be_bytes 4 (Z.lor (U32.shr w1 1) (U32.shl w0 31)) ++
  be_bytes 4 (Z.lor (U32.shr w2 1) (U32.shl w1 31)) ++
  be_bytes 4 (Z.lor (U32.shr w3 1) (U32.shl w2 31)).
Proof.
  rewrite be_bytes_words. unfold double_right.
  rewrite join_words_bit0, dbl_mask_eq.
  change (Z.shiftl 0xE1 120) with (Z.shiftl 0xE1000000 96).
  generalize 0xE1000000; intros R.
  unfold join_words. unfold_words.
  app_eq; apply be_bytes4_eq; destruct (Z.testbit w3 0); bound_words; bits.
Qed.

Lemma double_left_words :
  be_bytes 16 (double_left (join_words w0 w1 w2 w3)) =
  be_bytes 4 (Z.lor (U32.shl w0 1) (U32.shr w1 31)) ++
  be_bytes 4 (Z.lor (U32.shl w1 1) (U32.shr w2 31)) ++
  be_bytes 4 (Z.lor (U32.shl w2 1) (U32.shr w3 31)) ++
  be_bytes 4 (Z.lxor (U32.shl w3 1) (Portable.dblEAX_mask w0)).
Proof.
  rewrite be_bytes_words. unfold double_left.
  rewrite join_words_bit127, dblEAX_mask_eq by assumption.
  assert (HR : 0x87 mod 2 ^ 32 = 0x87) by reflexivity.
  set (R := 0x87) in *. clearbody R. rewrite <- HR. clear HR.
  unfold join_words. unfold_words.
  app_eq; apply be_bytes4_eq; destruct (Z.testbit w0 31); bound_words; bits.
Qed.

End DoubledWords.

(** ** The portable branch on values *)

Lemma read_write_16 m V l : length l = 16%nat -> read (write m V l) V 16 = l.
Proof. intros H. rewrite <- H. apply read_write_same. Qed.

Lemma length_words (l0 l1 l2 l3 : list byte) :
  length l0 = 4%nat -> length l1 = 4%nat -> length l2 = 4%nat -> length l3 = 4%nat ->
  length (l0 ++ l1 ++ l2 ++ l3) = 16%nat.
Proof. intros. rewrite !length_app. lia. Qed.

Lemma le_bytes_length n v : length (le_bytes n v) = n.
Proof. unfold le_bytes. rewrite length_rev. apply be_bytes_length. Qed.

Lemma portable_dbl_value host V m :
  read (Portable.dbl host V m) V 16 =
  be_bytes 16 (double_right (be_value (read m V 16))).
Proof.
  rewrite portable_dbl_words. cbv zeta.
  rewrite read_write_16 by (apply length_words; apply be_bytes_length).
  rewrite be_value_read16. symmetry.
  apply double_right_words; apply be_word_range.
Qed.

Lemma portable_dblEAX_value host V m :
  read (Portable.dblEAX host V m) V 16 =
  be_bytes 16 (double_left (be_value (read m V 16))).
Proof.
  rewrite portable_dblEAX_words. cbv zeta.
  rewrite read_write_16 by (apply length_words; apply be_bytes_length).
  rewrite be_value_read16. symmetry.
  apply double_left_words; apply be_word_range.
Qed.

Lemma portable_dblXTS_value host V m :
  read (Portable.dblXTS host V m) V 16 =
  le_bytes 16 (double_left (le_value (read m V 16))).
Proof.
  rewrite portable_dblXTS_words. cbv zeta.
  rewrite read_write_16 by (apply length_words; apply le_bytes_length).
  rewrite le_value_read16. unfold le_bytes.
  rewrite double_left_words by apply le_word_range.
  rewrite !rev_app_distr, <- !app_assoc. reflexivity.
Qed.

(** The portable code writes nothing outside of the buffer. *)
Lemma portable_frame host V m x :
  (x < V \/ V + 16 <= x)%nat ->
  Portable.dbl host V m x = m x /\
  Portable.dblEAX host V m x = m x /\
  Portable.dblXTS host V m x = m x.
Proof.
  intros H.
  rewrite portable_dbl_words, portable_dblEAX_words, portable_dblXTS_words.
  cbv zeta.
  repeat split; apply write_other;
    rewrite length_words by (apply be_bytes_length || apply le_bytes_length);
    exact H.
Qed.

(** ** The AVR branch *)

Lemma read_nth n : forall m a q d,
  (q < n)%nat -> nth q (read m a n) d = m (a + q)%nat.
Proof.
  induction n as [|n IH]; intros m a q d H; [lia|].
  cbn [read]. destruct q as [|q]; cbn [nth].
  - now rewrite Nat.add_0_r.
  - rewrite IH by lia. f_equal. lia.
Qed.

Lemma write_read_window m V n q :
  (q < n)%nat -> write zero 0%nat (read m V n) q = m (V + q)%nat.
Proof.
  intros H.
  rewrite <- (read_nth n m V q Byte.x00 H).
  rewrite <- (read_nth n (write zero 0%nat (read m V n)) 0%nat q Byte.x00 H) at 1.
  f_equal. rewrite <- (read_length n m V) at 2. apply read_write_same.
Qed.

Module AVRFacts.
Import AVR.

Lemma get_same n V c c' r : same_window n V c c' -> get c r = get c' r.
Proof. intros [H _]. unfold get. now rewrite H. Qed.

Lemma set_same n V c c' r v cf :
  same_window n V c c' -> same_window n V (set c r v cf) (set c' r v cf).
Proof.
  intros (Hr & Hc & Hm). repeat split; cbn; [|exact Hm].
  intros x. now rewrite Hr.
Qed.

Lemma step_same n V i c c' :
  in_window n [i] = true ->
  same_window n V c c' -> same_window n V (step V i c) (step 0%nat i c').
Proof.
  intros Hi H. pose proof H as (Hr & Hc & Hm).
  destruct i; cbn [step];
    rewrite ?(get_same n V c c' _ H), ?Hc; try (apply set_same; exact H).
  - cbn in Hi. rewrite andb_true_r in Hi. apply Nat.ltb_lt in Hi.
    rewrite Hm by exact Hi. apply set_same; exact H.
  - cbn in Hi. rewrite andb_true_r in Hi. apply Nat.ltb_lt in Hi.
    unfold same_window. cbn [regs carry ram].
    split; [exact Hr|split; [reflexivity|]].
    intros q' Hq'. unfold store8. cbn [Nat.add].
    destruct (Nat.eqb_spec q' q) as [->|Hne].
    + now rewrite Nat.eqb_refl.
    + replace (Nat.eqb (V + q') (V + q)) with false
        by (symmetry; apply Nat.eqb_neq; lia).
      now apply Hm.
Qed.

Lemma run_same n V p : forall c c',
  in_window n p = true ->
  same_window n V c c' -> same_window n V (run V p c) (run 0%nat p c').
Proof.
  induction p as [|i p IH]; intros c c' Hp H; [exact H|].
  cbn in Hp. apply andb_true_iff in Hp as [Hi Hp].
  cbn [run fold_left]. apply IH; [exact Hp|].
  apply step_same; [|exact H]. cbn. now rewrite Hi.
Qed.

(** A block leaves the memory outside of its window alone. *)
Lemma run_frame n V p : forall c x,
  in_window n p = true ->
  (x < V \/ V + n <= x)%nat -> ram (run V p c) x = ram c x.
Proof.
  induction p as [|i p IH]; intros c x Hp Hx; [reflexivity|].
  cbn in Hp. apply andb_true_iff in Hp as [Hi Hp].
  cbn [run fold_left]. change (ram (run V p (step V i c)) x = ram c x).
  rewrite IH by assumption.
  destruct i; cbn [step set ram]; try reflexivity.
  apply Nat.ltb_lt in Hi. apply store8_other. lia.
Qed.

(** Running a block on a buffer in memory is running it on a copy of
    the buffer placed at address 0. *)
Lemma run_window n V p junk cf m :
  in_window n p = true ->
  read (ram (run V p (enter junk cf m))) V n =
  read (ram (run 0%nat p (enter junk cf (write zero 0%nat (read m V n))))) 0%nat n.
Proof.
  intros Hp.
  assert (H : same_window n V (run V p (enter junk cf m))
                (run 0%nat p (enter junk cf (write zero 0%nat (read m V n))))).
  { apply run_same; [exact Hp|]. repeat split; cbn.
    intros q Hq. symmetry. now apply write_read_window. }
  destruct H as (_ & _ & H).
  apply nth_ext with (d := Byte.x00) (d' := Byte.x00).
  - now rewrite !read_length.
  - intros q Hq. rewrite read_length in Hq.
    rewrite !read_nth by exact Hq. now apply H.
Qed.

End AVRFacts.

Lemma ror_bytes_value l : forall c,
  ror_bytes c l =
  be_bytes (length l)
    (Z.lor (Z.shiftr (be_value l) 1)
       (Z.shiftl (AVR.bit c) (8 * Z.of_nat (length l) - 1))).
Proof.
  induction l as [|b t IH]; intros c; [reflexivity|].
  cbn [ror_bytes be_value length be_bytes]. f_equal.
  - apply of_Z_mod_eq. bound_value t. bound_bytes. bits.
  - rewrite IH. destruct t as [|b' t']; [reflexivity|].
    rewrite <- (be_bytes_mod _ (Z.lor _ _) (length (b' :: t'))) by lia.
    rewrite <- (be_bytes_mod _ (Z.lor (Z.shiftr (Z.lor _ _) _) _) (length (b' :: t'))) by lia.
    f_equal. generalize (b' :: t'). clear. intros t.
    destruct (Nat.eq_dec (length t) 0) as [E|E].
    + rewrite E. cbn. now rewrite !Z.mod_1_r.
    + bound_value t. bound_bytes. bits.
Qed.

Lemma le_value_cons b t :
  le_value (b :: t) = Z.lor (Z.shiftl (le_value t) 8) (byte.unsigned b).
Proof.
  unfold le_value. cbn [rev]. rewrite be_value_app. cbn [length be_value].
  norm_idx. now rewrite Z.shiftl_0_r, Z.lor_0_r.
Qed.

Lemma le_bytes_S n v :
  le_bytes (S n) v = byte.of_Z v :: le_bytes n (Z.shiftr v 8).
Proof.
  unfold le_bytes. replace (S n) with (n + 1)%nat by lia.
  rewrite be_bytes_app, rev_app_distr. cbn [be_bytes rev app].
  norm_idx. now rewrite Z.shiftr_0_r.
Qed.

Lemma le_bytes_mod n v k :
  (n <= k)%nat -> le_bytes n (v mod 2 ^ (8 * Z.of_nat k)) = le_bytes n v.
Proof. intros H. unfold le_bytes. now rewrite be_bytes_mod. Qed.

Lemma rol_bytes_value l : forall c,
  rol_bytes c l =
  le_bytes (length l) (Z.lor (Z.shiftl (le_value l) 1) (AVR.bit c)).
Proof.
  induction l as [|b t IH]; intros c; [reflexivity|].
  cbn [rol_bytes length]. rewrite le_bytes_S, le_value_cons. f_equal.
  - apply of_Z_mod_eq. bound_bytes. bits.
  - rewrite IH.
    rewrite <- (le_bytes_mod _ (Z.lor _ _) (length t)) by lia.
    rewrite <- (le_bytes_mod _ (Z.shiftr _ _) (length t)) by lia.
    f_equal. bound_bytes. bits.
Qed.

Lemma sbc_mask c K :
  0 <= K < 2 ^ 8 ->
  Z.land (byte.unsigned (byte.of_Z (byte.unsigned (byte.of_Z 0) - 0 - AVR.bit c))) K =
  if c then K else 0.
Proof.
  intros HK.
  assert (E : byte.unsigned (byte.of_Z (byte.unsigned (byte.of_Z 0) - 0 - AVR.bit c)) =
              if c then Z.ones 8 else 0) by (destruct c; reflexivity).
  rewrite E. destruct c; [|reflexivity].
  rewrite Z.land_comm, Z.land_ones by lia. now apply Z.mod_small.
Qed.

Lemma xor_x00 x : byte.xor x Byte.x00 = x.
Proof.
  unfold byte.xor. change (byte.unsigned Byte.x00) with 0.
  rewrite Z.lxor_0_r. apply byte.of_Z_unsigned.
Qed.

Lemma be_value_bit0 l :
  Z.testbit (be_value l) 0 = Z.testbit (byte.unsigned (last l Byte.x00)) 0.
Proof.
  induction l as [|b [|b' t] IH]; [reflexivity| |].
  - cbn [be_value length last]. norm_idx. now rewrite Z.shiftl_0_r, Z.lor_0_r.
  - change (last (b :: b' :: t) Byte.x00) with (last (b' :: t) Byte.x00).
    rewrite <- IH. change (be_value (b :: b' :: t)) with
      (Z.lor (Z.shiftl (byte.unsigned b) (8 * Z.of_nat (length (b' :: t))))
         (be_value (b' :: t))).
    generalize (be_value (b' :: t)). intros v. cbn [length].
    autorewrite with bits. split_cmp. reflexivity.
Qed.

Lemma be_value_top b t :
  Z.testbit (be_value (b :: t)) (8 * Z.of_nat (length t) + 7) =
  Z.testbit (byte.unsigned b) 7.
Proof.
  cbn [be_value]. bound_value t. autorewrite with bits. split_cmp.
  cbn [andb]. rewrite orb_false_r. f_equal. lia.
Qed.

Lemma le_value_top l :
  l <> [] ->
  Z.testbit (le_value l) (8 * Z.of_nat (length l) - 1) =
  Z.testbit (byte.unsigned (last l Byte.x00)) 7.
Proof.
  intros Hl. rewrite (app_removelast_last Byte.x00 Hl) at 1 2.
  unfold le_value. rewrite rev_app_distr, length_app. cbn [rev app length].
  rewrite <- (be_value_top (last l Byte.x00) (rev (removelast l))).
  rewrite length_rev. f_equal. lia.
Qed.

Lemma le_value_bit127 l :
  length l = 16%nat ->
  Z.testbit (le_value l) 127 = Z.testbit (byte.unsigned (last l Byte.x00)) 7.
Proof.
  intros Hl. rewrite <- le_value_top by (intros ->; discriminate).
  now rewrite Hl.
Qed.

Lemma be_bytes_rev_le n v : be_bytes n v = rev (le_bytes n v).
Proof. unfold le_bytes. now rewrite rev_involutive. Qed.

Lemma be_value_rev_le l : be_value l = le_value (rev l).
Proof. unfold le_value. now rewrite rev_involutive. Qed.

Lemma double_right_bytes l :
  l <> [] ->
  be_bytes (length l) (double_right (be_value l)) =
  xor_bytes (ror_bytes false l)
    (be_bytes (length l) (if Z.testbit (be_value l) 0 then Z.shiftl 0xE1 120 else 0)).
Proof.
  intros Hl. unfold double_right. rewrite be_bytes_xor, ror_bytes_value.
  cbn [AVR.bit]. now rewrite Z.shiftl_0_l, Z.lor_0_r.
Qed.

Lemma double_left_bytes l :
  length l = 16%nat ->
  le_bytes 16 (double_left (le_value l)) =
  xor_bytes (rol_bytes false l)
    (le_bytes 16 (if Z.testbit (le_value l) 127 then 0x87 else 0)).
Proof.
  intros Hl. unfold double_left, le_bytes.
  rewrite be_bytes_xor, <- xor_bytes_rev by now rewrite !be_bytes_length.
  change (2 ^ 128) with (2 ^ (8 * Z.of_nat 16)). rewrite be_bytes_mod by lia.
  fold (le_bytes 16 (Z.shiftl (le_value l) 1)).
  rewrite rol_bytes_value, Hl. cbn [AVR.bit]. now rewrite Z.lor_0_r.
Qed.

Ltac run_block :=
  cbv [read AVR.ram AVR.run AVR.dbl_code AVR.dblEAX_code AVR.dblXTS_code
       fold_left AVR.step AVR.set AVR.get AVR.regs AVR.carry AVR.enter
       AVR.reg_eqb write zero store8 Nat.eqb Nat.add];
  rewrite ?byte.of_Z_unsigned, ?sbc_mask by lia.

Ltac list_eq := repeat apply (f_equal2 (@cons byte)); try reflexivity.

Ltac eval_bytes :=
  repeat match goal with
         | |- context [be_bytes ?n ?v] =>
           is_ground v;
           let r := eval vm_compute in (be_bytes n v) in
           change (be_bytes n v) with r
         | |- context [le_bytes ?n ?v] =>
           is_ground v;
           let r := eval vm_compute in (le_bytes n v) in
           change (le_bytes n v) with r
         end.

Ltac split16 l :=
  do 16 (destruct l as [|? l]; [discriminate|]);
  destruct l; [intros _|discriminate].

Lemma avr_dbl_block junk cf l :
  length l = 16%nat ->
  read (AVR.ram (AVR.run 0%nat AVR.dbl_code (AVR.enter junk cf (write zero 0%nat l)))) 0%nat 16 =
  be_bytes 16 (double_right (be_value l)).
Proof.
  intros Hl. rewrite <- Hl at 2. rewrite double_right_bytes by (intros ->; discriminate).
  rewrite Hl. revert Hl. split16 l.
  rewrite be_value_bit0. cbn [last].
  run_block.
  match goal with |- context [if ?c then _ else _] => destruct c eqn:E end.
  all: eval_bytes; cbn [xor_bytes ror_bytes AVR.bit];
    rewrite ?xor_x00, ?Z.shiftl_0_l, ?Z.lor_0_r; list_eq.
  change (byte.unsigned (byte.of_Z 0)) with 0.
  rewrite Z.lxor_0_r. apply byte.of_Z_unsigned.
Qed.

Lemma avr_dblXTS_block junk cf l :
  length l = 16%nat ->
  read (AVR.ram (AVR.run 0%nat AVR.dblXTS_code (AVR.enter junk cf (write zero 0%nat l)))) 0%nat 16 =
  le_bytes 16 (double_left (le_value l)).
Proof.
  intros Hl. rewrite double_left_bytes by exact Hl.
  rewrite le_value_bit127 by exact Hl.
  revert Hl. split16 l. cbn [last].
  run_block.
  match goal with |- context [if ?c then _ else _] => destruct c eqn:E end.
  all: eval_bytes; cbn [xor_bytes rol_bytes AVR.bit];
    rewrite ?xor_x00, ?Z.lor_0_r; list_eq.
  change (byte.unsigned (byte.of_Z 0)) with 0.
  rewrite Z.lxor_0_r. apply byte.of_Z_unsigned.
Qed.

Lemma avr_dblEAX_block junk cf l :
  length l = 16%nat ->
  read (AVR.ram (AVR.run 0%nat AVR.dblEAX_code (AVR.enter junk cf (write zero 0%nat l)))) 0%nat 16 =
  be_bytes 16 (double_left (be_value l)).
Proof.
  intros Hl. rewrite be_bytes_rev_le, be_value_rev_le.
  rewrite double_left_bytes by now rewrite length_rev.
  rewrite le_value_bit127 by now rewrite length_rev.
  revert Hl. split16 l. cbn [last rev app].
  run_block.
  match goal with |- context [if ?c then _ else _] => destruct c eqn:E end.
  all: eval_bytes; cbn [xor_bytes rol_bytes AVR.bit rev app];
    rewrite ?xor_x00, ?Z.lor_0_r; list_eq.
  change (byte.unsigned (byte.of_Z 0)) with 0.
  rewrite Z.lxor_0_r. apply byte.of_Z_unsigned.
Qed.

(** ** The three doubling functions on every target *)

Lemma avr_dbl_value junk cf V m :
  read (AVR.exec AVR.dbl_code junk cf V m) V 16 =
  be_bytes 16 (double_right (be_value (read m V 16))).
Proof.
  unfold AVR.exec. rewrite AVRFacts.run_window by reflexivity.
  apply avr_dbl_block, read_length.
Qed.

Lemma avr_dblEAX_value junk cf V m :
  read (AVR.exec AVR.dblEAX_code junk cf V m) V 16 =
  be_bytes 16 (double_left (be_value (read m V 16))).
Proof.
  unfold AVR.exec. rewrite AVRFacts.run_window by reflexivity.
  apply avr_dblEAX_block, read_length.
Qed.

Lemma avr_dblXTS_value junk cf V m :
  read (AVR.exec AVR.dblXTS_code junk cf V m) V 16 =
  le_bytes 16 (double_left (le_value (read m V 16))).
Proof.
  unfold AVR.exec. rewrite AVRFacts.run_window by reflexivity.
  apply avr_dblXTS_block, read_length.
Qed.

Lemma dbl_value t V m :
  read (GF128.dbl t V m) V 16 = be_bytes 16 (double_right (be_value (read m V 16))).
Proof.
  destruct t as [junk cf|host]; [apply avr_dbl_value | apply portable_dbl_value].
Qed.

Lemma dblEAX_value t V m :
  read (GF128.dblEAX t V m) V 16 = be_bytes 16 (double_left (be_value (read m V 16))).
Proof.
  destruct t as [junk cf|host]; [apply avr_dblEAX_value | apply portable_dblEAX_value].
Qed.

Lemma dblXTS_value t V m :
  read (GF128.dblXTS t V m) V 16 = le_bytes 16 (double_left (le_value (read m V 16))).
Proof.
  destruct t as [junk cf|host]; [apply avr_dblXTS_value | apply portable_dblXTS_value].
Qed.

(** The doubling functions write nothing outside of the buffer. *)
Lemma dbl_frame t V m x :
  (x < V \/ V + 16 <= x)%nat ->
  GF128.dbl t V m x = m x /\
  GF128.dblEAX t V m x = m x /\
  GF128.dblXTS t V m x = m x.
Proof.
  intros H. destruct t as [junk cf|host]; [|now apply portable_frame].
  repeat split; apply (AVRFacts.run_frame 16); (reflexivity || exact H).
Qed.

Lemma read_write_zero b : length b = 16%nat -> read (write zero 0%nat b) 0%nat 16 = b.
Proof. apply read_write_16. Qed.

Lemma on_buffer_dbl t b :
  length b = 16%nat ->
  on_buffer (GF128.dbl t) b = be_bytes 16 (double_right (be_value b)).
Proof. intros H. unfold on_buffer. now rewrite dbl_value, read_write_zero. Qed.

Lemma on_buffer_dblEAX t b :
  length b = 16%nat ->
  on_buffer (GF128.dblEAX t) b = be_bytes 16 (double_left (be_value b)).
Proof. intros H. unfold on_buffer. now rewrite dblEAX_value, read_write_zero. Qed.

Lemma on_buffer_dblXTS t b :
  length b = 16%nat ->
  on_buffer (GF128.dblXTS t) b = le_bytes 16 (double_left (le_value b)).
Proof. intros H. unfold on_buffer. now rewrite dblXTS_value, read_write_zero. Qed.

(** The result in memory only depends on the buffer, not on where it is. *)
Lemma on_buffer_read t V m :
  read (GF128.dbl t V m) V 16 = on_buffer (GF128.dbl t) (read m V 16) /\
  read (GF128.dblEAX t V m) V 16 = on_buffer (GF128.dblEAX t) (read m V 16) /\
  read (GF128.dblXTS t V m) V 16 = on_buffer (GF128.dblXTS t) (read m V 16).
Proof.
  rewrite on_buffer_dbl, on_buffer_dblEAX, on_buffer_dblXTS by apply read_length.
  repeat split; [apply dbl_value | apply dblEAX_value | apply dblXTS_value].
Qed.

(** ** Doubling on values *)

Lemma double_right_mod v :
  0 <= v < 2 ^ 128 -> double_right v mod 2 ^ 128 = double_right v.
Proof.
  intros H. unfold double_right. rewrite <- (Z.mod_small v (2 ^ 128) H).
  change (Z.shiftl 0xE1 120) with (Z.shiftl (0xE1 mod 2 ^ 8) 120).
  generalize 0xE1. intros R.
  destruct (Z.testbit (v mod 2 ^ 128) 0); bits.
Qed.

Lemma double_left_mod v : double_left v mod 2 ^ 128 = double_left v.
Proof.
  unfold double_left.
  change 0x87 with (0x87 mod 2 ^ 8).
  generalize 0x87. intros R.
  destruct (Z.testbit v 127); bits.
Qed.

Lemma double_right_xor a b :
  double_right (Z.lxor a b) = Z.lxor (double_right a) (double_right b).
Proof.
  unfold double_right. rewrite Z.lxor_spec.
  generalize (Z.shiftl 0xE1 120). intros R.
  destruct (Z.testbit a 0), (Z.testbit b 0); cbn [xorb]; bits.
Qed.

Lemma double_left_xor a b :
  double_left (Z.lxor a b) = Z.lxor (double_left a) (double_left b).
Proof.
  unfold double_left. rewrite Z.lxor_spec.
  generalize 0x87. intros R.
  destruct (Z.testbit a 127), (Z.testbit b 127); cbn [xorb]; bits.
Qed.

Lemma le_value_xor a b :
  length a = length b ->
  le_value (xor_bytes a b) = Z.lxor (le_value a) (le_value b).
Proof.
  intros H. unfold le_value. rewrite <- xor_bytes_rev by exact H.
  apply be_value_xor. now rewrite !length_rev.
Qed.

Lemma le_bytes_xor n x y :
  le_bytes n (Z.lxor x y) = xor_bytes (le_bytes n x) (le_bytes n y).
Proof.
  unfold le_bytes. rewrite be_bytes_xor.
  symmetry. apply xor_bytes_rev. now rewrite !be_bytes_length.
Qed.

(** * The specification *)

Lemma be_value16_range b : length b = 16%nat -> 0 <= be_value b < 2 ^ 128.
Proof. intros H. pose proof (be_value_range b) as R. now rewrite H in R. Qed.

Lemma be_value_bytes16 v : be_value (be_bytes 16 v) = v mod 2 ^ 128.
Proof. apply (be_value_bytes 16). Qed.

Lemma le_value_bytes16 v : le_value (le_bytes 16 v) = v mod 2 ^ 128.
Proof.
  unfold le_value, le_bytes. rewrite rev_involutive. apply be_value_bytes16.
Qed.

(** C2: [GF128::dbl] reads the buffer as a big-endian 128-bit value of
    words V0..V3 (V0 most significant), computes
    [mask = (~(V3 & 1) + 1) & 0xE1000000], which is 0xE1000000 exactly when
    the least significant bit of V3 is 1 and 0 otherwise, shifts the value
    right by one bit across the four words, XORs the mask into V0 after
    the shift and stores the result in big-endian order. *)
Theorem dbl_correct (t : target) (V : addr) (m : mem) :
  let b := read m V 16 in
  let V0 := be_word b 0 in
  let V1 := be_word b 1 in
  let V2 := be_word b 2 in
  let V3 := be_word b 3 in
  let mask := Z.land (U32.add (U32.not (Z.land V3 0x01)) 1) 0xE1000000 in
  let b' := read (GF128.dbl t V m) V 16 in
  be_value b = join_words V0 V1 V2 V3 /\
  mask = Portable.dbl_mask V3 /\
  mask = (if Z.testbit V3 0 then 0xE1000000 else 0) /\
  b' = be_bytes 4 (Z.lxor (U32.shr V0 1) mask) ++
       be_bytes 4 (Z.lor (U32.shr V1 1) (U32.shl V0 31)) ++
       be_bytes 4 (Z.lor (U32.shr V2 1) (U32.shl V1 31)) ++
       be_bytes 4 (Z.lor (U32.shr V3 1) (U32.shl V2 31)) /\
  be_value b' = Z.lxor (Z.shiftr (be_value b) 1) (Z.shiftl mask 96) /\
  b' = be_bytes 16 (Z.lxor (Z.shiftr (be_value b) 1) (Z.shiftl mask 96)).
Proof.
  cbv zeta.
  assert (Hv : double_right (be_value (read m V 16)) =
               Z.lxor (Z.shiftr (be_value (read m V 16)) 1)
                 (Z.shiftl (Portable.dbl_mask (be_word (read m V 16) 3)) 96)).
  { unfold double_right. rewrite be_value_read16 at 2.
    rewrite join_words_bit0, dbl_mask_eq.
    now destruct (Z.testbit (be_word (read m V 16) 3) 0). }
  fold (Portable.dbl_mask (be_word (read m V 16) 3)).
  repeat split.
  - apply be_value_read16.
  - apply dbl_mask_eq.
  - rewrite dbl_value, be_value_read16.
    apply double_right_words; apply be_word_range.
  - rewrite dbl_value, be_value_bytes16, double_right_mod
      by (apply be_value16_range, read_length).
    exact Hv.
  - rewrite dbl_value. now rewrite Hv.
Qed.

(** C3: [GF128::dblEAX] reads the buffer as a big-endian 128-bit value of
    words V0..V3 (V0 most significant), computes
    [mask = (~(V0 >> 31) + 1) & 0x00000087], which is nonzero exactly when
    the most significant bit of V0 is 1, shifts the value left by one bit
    across the four words, XORs the mask into V3 after the shift and
    stores the result in big-endian order. *)
Theorem dblEAX_correct (t : target) (V : addr) (m : mem) :
  let b := read m V 16 in
  let V0 := be_word b 0 in
  let V1 := be_word b 1 in
  let V2 := be_word b 2 in
  let V3 := be_word b 3 in
  let mask := Z.land (U32.add (U32.not (U32.shr V0 31)) 1) 0x00000087 in
  let b' := read (GF128.dblEAX t V m) V 16 in
  be_value b = join_words V0 V1 V2 V3 /\
  mask = Portable.dblEAX_mask V0 /\
  mask = (if Z.testbit V0 31 then 0x87 else 0) /\
  (mask <> 0 <-> Z.testbit V0 31 = true) /\
  b' = be_bytes 4 (Z.lor (U32.shl V0 1) (U32.shr V1 31)) ++
       be_bytes 4 (Z.lor (U32.shl V1 1) (U32.shr V2 31)) ++
       be_bytes 4 (Z.lor (U32.shl V2 1) (U32.shr V3 31)) ++
       be_bytes 4 (Z.lxor (U32.shl V3 1) mask) /\
  be_value b' = Z.lxor (Z.shiftl (be_value b) 1 mod 2 ^ 128) mask /\
  b' = be_bytes 16 (Z.lxor (Z.shiftl (be_value b) 1 mod 2 ^ 128) mask).
Proof.
  cbv zeta.
  fold (Portable.dblEAX_mask (be_word (read m V 16) 0)).
  assert (Hm : Portable.dblEAX_mask (be_word (read m V 16) 0) =
               if Z.testbit (be_word (read m V 16) 0) 31 then 0x87 else 0)
    by apply dblEAX_mask_eq, be_word_range.
  assert (Hv : double_left (be_value (read m V 16)) =
               Z.lxor (Z.shiftl (be_value (read m V 16)) 1 mod 2 ^ 128)
                 (Portable.dblEAX_mask (be_word (read m V 16) 0))).
  { unfold double_left. rewrite be_value_read16 at 2.
    rewrite join_words_bit127 by apply be_word_range. now rewrite Hm. }
  repeat split.
  - apply be_value_read16.
  - exact Hm.
  - rewrite Hm. now destruct (Z.testbit (be_word (read m V 16) 0) 31).
  - rewrite Hm. destruct (Z.testbit (be_word (read m V 16) 0) 31);
      [discriminate | congruence].
  - rewrite dblEAX_value, be_value_read16.
    apply double_left_words; apply be_word_range.
  - rewrite dblEAX_value, be_value_bytes16, double_left_mod. exact Hv.
  - rewrite dblEAX_value. now rewrite Hv.
Qed.

(** C4: [GF128::dblXTS] reads the buffer as a little-endian 128-bit value
    of words V0..V3 (V0 least significant), computes
    [mask = (~(V3 >> 31) + 1) & 0x00000087], which is nonzero exactly when
    the most significant bit of the value is 1, shifts the value left by
    one bit across the four words, XORs the mask into V0 after the shift
    and stores the result in little-endian order. *)
Theorem dblXTS_correct (t : target) (V : addr) (m : mem) :
  let b := read m V 16 in
  let V0 := le_word b 0 in
  let V1 := le_word b 1 in
  let V2 := le_word b 2 in
  let V3 := le_word b 3 in
  let mask := Z.land (U32.add (U32.not (U32.shr V3 31)) 1) 0x00000087 in
  let b' := read (GF128.dblXTS t V m) V 16 in
  le_value b = join_words V3 V2 V1 V0 /\
  mask = Portable.dblXTS_mask V3 /\
  mask = (if Z.testbit (le_value b) 127 then 0x87 else 0) /\
  (mask <> 0 <-> Z.testbit (le_value b) 127 = true) /\
  b' = le_bytes 4 (Z.lxor (U32.shl V0 1) mask) ++
       le_bytes 4 (Z.lor (U32.shl V1 1) (U32.shr V0 31)) ++
       le_bytes 4 (Z.lor (U32.shl V2 1) (U32.shr V1 31)) ++
       le_bytes 4 (Z.lor (U32.shl V3 1) (U32.shr V2 31)) /\
  le_value b' = Z.lxor (Z.shiftl (le_value b) 1 mod 2 ^ 128) mask /\
  b' = le_bytes 16 (Z.lxor (Z.shiftl (le_value b) 1 mod 2 ^ 128) mask).
Proof.
  cbv zeta.
  fold (Portable.dblXTS_mask (le_word (read m V 16) 3)).
  assert (Hb : Z.testbit (le_value (read m V 16)) 127 =
               Z.testbit (le_word (read m V 16) 3) 31).
  { rewrite le_value_read16.
    apply join_words_bit127; apply le_word_range. }
  assert (Hm : Portable.dblXTS_mask (le_word (read m V 16) 3) =
               if Z.testbit (le_value (read m V 16)) 127 then 0x87 else 0).
  { rewrite Hb. apply dblXTS_mask_eq, le_word_range. }
  assert (Hv : double_left (le_value (read m V 16)) =
               Z.lxor (Z.shiftl (le_value (read m V 16)) 1 mod 2 ^ 128)
                 (Portable.dblXTS_mask (le_word (read m V 16) 3))).
  { unfold double_left. now rewrite Hm. }
  repeat split.
  - apply le_value_read16.
  - exact Hm.
  - rewrite Hm. now destruct (Z.testbit (le_value (read m V 16)) 127).
  - rewrite Hm. destruct (Z.testbit (le_value (read m V 16)) 127);
      [discriminate | congruence].
  - rewrite dblXTS_value, le_value_read16. unfold le_bytes.
    rewrite double_left_words by apply le_word_range.
    rewrite !rev_app_distr, <- !app_assoc. reflexivity.
  - rewrite dblXTS_value, le_value_bytes16, double_left_mod. exact Hv.
  - rewrite dblXTS_value. now rewrite Hv.
Qed.

(** C5, as stated: doubling 0x80 followed by 15 zero bytes would give 0xE1
    followed by 15 zero bytes.  It does not, on any target: the bit that
    [GF128::dbl] shifts out is the lowest bit of the last byte, which is
    clear in this block. *)
Lemma dbl_top_bit_not_e1 :
  on_buffer (GF128.dbl (Avr AVR.cleared false)) top_bit_block <> e1_block /\
  on_buffer (GF128.dbl (Host LittleEndian)) top_bit_block <> e1_block /\
  on_buffer (GF128.dbl (Host BigEndian)) top_bit_block <> e1_block.
Proof. repeat split; vm_compute; discriminate. Qed.

(** C5, amended: doubling 0x80 followed by 15 zero bytes gives 0x40
    followed by 15 zero bytes, a shift with a zero mask; the block that
    doubles to 0xE1 followed by 15 zero bytes (the mask applied to an
    all-zero shift result) is 15 zero bytes followed by 0x01. *)
Theorem dbl_known_answers (t : target) :
  on_buffer (GF128.dbl t) top_bit_block = x40_block /\
  Portable.dbl_mask (be_word top_bit_block 3) = 0 /\
  on_buffer (GF128.dbl t) low_bit_block = e1_block /\
  Portable.dbl_mask (be_word low_bit_block 3) = 0xE1000000.
Proof.
  rewrite !on_buffer_dbl by reflexivity.
  repeat split; vm_compute; reflexivity.
Qed.

(** C6: each doubling function is linear over GF(2): doubling the
    byte-wise XOR of two buffers of 16 bytes gives the byte-wise XOR of
    the doubled buffers. *)
Theorem doubling_linear (t : target) (a b : list byte) :
  length a = 16%nat -> length b = 16%nat ->
  xor_bytes (on_buffer (GF128.dbl t) a) (on_buffer (GF128.dbl t) b) =
    on_buffer (GF128.dbl t) (xor_bytes a b) /\
  xor_bytes (on_buffer (GF128.dblEAX t) a) (on_buffer (GF128.dblEAX t) b) =
    on_buffer (GF128.dblEAX t) (xor_bytes a b) /\
  xor_bytes (on_buffer (GF128.dblXTS t) a) (on_buffer (GF128.dblXTS t) b) =
    on_buffer (GF128.dblXTS t) (xor_bytes a b).
Proof.
  intros Ha Hb.
  assert (Hx : length (xor_bytes a b) = 16%nat)
    by (rewrite xor_bytes_length; congruence).
  rewrite !on_buffer_dbl, !on_buffer_dblEAX, !on_buffer_dblXTS by assumption.
  rewrite be_value_xor, le_value_xor by congruence.
  rewrite double_right_xor, !double_left_xor.
  now rewrite !be_bytes_xor, le_bytes_xor.
Qed.

Lemma doubling_linear_witness :
  xor_bytes (on_buffer (GF128.dbl (Avr AVR.cleared false)) top_bit_block) (on_buffer (GF128.dbl (Avr AVR.cleared false)) low_bit_block) =
    on_buffer (GF128.dbl (Avr AVR.cleared false)) (xor_bytes top_bit_block low_bit_block) /\
  xor_bytes (on_buffer (GF128.dblEAX (Avr AVR.cleared false)) top_bit_block) (on_buffer (GF128.dblEAX (Avr AVR.cleared false)) low_bit_block) =
    on_buffer (GF128.dblEAX (Avr AVR.cleared false)) (xor_bytes top_bit_block low_bit_block) /\
  xor_bytes (on_buffer (GF128.dblXTS (Avr AVR.cleared false)) top_bit_block) (on_buffer (GF128.dblXTS (Avr AVR.cleared false)) low_bit_block) =
    on_buffer (GF128.dblXTS (Avr AVR.cleared false)) (xor_bytes top_bit_block low_bit_block).
Proof.
  apply (doubling_linear (Avr AVR.cleared false) top_bit_block low_bit_block);
    reflexivity.
Defined.

(** C7: on the little-endian encoding of a value, [GF128::dblXTS] gives the
    little-endian encoding of the value that [GF128::dblEAX] gives in
    big-endian encoding on the big-endian encoding of the same value; the
    two differ by a reversal of the bytes only. *)
Theorem dblXTS_dblEAX_agree (t t' : target) (v : Z) :
  on_buffer (GF128.dblXTS t) (le_bytes 16 v) = le_bytes 16 (double_left (v mod 2 ^ 128)) /\
  on_buffer (GF128.dblEAX t') (be_bytes 16 v) = be_bytes 16 (double_left (v mod 2 ^ 128)) /\
  rev (on_buffer (GF128.dblEAX t') (rev (le_bytes 16 v))) =
    on_buffer (GF128.dblXTS t) (le_bytes 16 v).
Proof.
  assert (Hx : on_buffer (GF128.dblXTS t) (le_bytes 16 v) =
               le_bytes 16 (double_left (v mod 2 ^ 128))).
  { rewrite on_buffer_dblXTS by apply le_bytes_length.
    now rewrite le_value_bytes16. }
  assert (He : on_buffer (GF128.dblEAX t') (be_bytes 16 v) =
               be_bytes 16 (double_left (v mod 2 ^ 128))).
  { rewrite on_buffer_dblEAX by apply be_bytes_length.
    now rewrite be_value_bytes16. }
  repeat split; [exact Hx | exact He |].
  unfold le_bytes at 1. rewrite rev_involutive, He, Hx. reflexivity.
Qed.

(** The same for buffers rather than values. *)
Lemma dblXTS_dblEAX_rev (t t' : target) (b : list byte) :
  length b = 16%nat ->
  rev (on_buffer (GF128.dblEAX t') (rev b)) = on_buffer (GF128.dblXTS t) b.
Proof.
  intros H. rewrite on_buffer_dblEAX, on_buffer_dblXTS
    by (rewrite ?length_rev; exact H).
  reflexivity.
Qed.

(** C8: each doubling function maps the all-zero buffer to the all-zero
    buffer, with a zero mask. *)
Theorem doubling_zero (t : target) :
  on_buffer (GF128.dbl t) zero_block = zero_block /\
  on_buffer (GF128.dblEAX t) zero_block = zero_block /\
  on_buffer (GF128.dblXTS t) zero_block = zero_block /\
  Portable.dbl_mask (be_word zero_block 3) = 0 /\
  Portable.dblEAX_mask (be_word zero_block 0) = 0 /\
  Portable.dblXTS_mask (le_word zero_block 3) = 0.
Proof.
  rewrite on_buffer_dbl, on_buffer_dblEAX, on_buffer_dblXTS by reflexivity.
  repeat split; vm_compute; reflexivity.
Qed.

Lemma be_value4_range l : length l = 4%nat -> 0 <= be_value l < 2 ^ 32.
Proof. intros H. pose proof (be_value_range l) as R. now rewrite H in R. Qed.

Lemma enter_same n junk cf V m :
  AVR.same_window n V (AVR.enter junk cf m)
    (AVR.enter junk cf (write zero 0%nat (read m V n))).
Proof.
  unfold AVR.same_window, AVR.enter. cbn [AVR.regs AVR.carry AVR.ram].
  repeat split. intros q Hq. symmetry. now apply write_read_window.
Qed.

Lemma avr_mask junk cf V m p K :
  0 <= K < 2 ^ 8 ->
  AVR.in_window 16 p = true ->
  (forall l, length l = 16%nat ->
     exists c, AVR.mask_of 0%nat p (AVR.enter junk cf (write zero 0%nat l)) =
               byte.unsigned (byte.of_Z (if c : bool then K else 0))) ->
  AVR.mask_of V p (AVR.enter junk cf m) = 0 \/
  AVR.mask_of V p (AVR.enter junk cf m) = K.
Proof.
  intros HK Hp Hl.
  assert (Hw : AVR.in_window 16 (firstn (length p - 2) p) = true).
  { unfold AVR.in_window in *.
    rewrite <- (firstn_skipn (length p - 2) p), forallb_app in Hp.
    now apply andb_true_iff in Hp. }
  assert (H : AVR.same_window 16 V
                (AVR.run V (firstn (length p - 2) p) (AVR.enter junk cf m))
                (AVR.run 0%nat (firstn (length p - 2) p)
                   (AVR.enter junk cf (write zero 0%nat (read m V 16))))).
  { apply AVRFacts.run_same; [exact Hw | apply enter_same]. }
  unfold AVR.mask_of in *. rewrite (AVRFacts.get_same _ _ _ _ _ H).
  destruct (Hl (read m V 16) (read_length _ _ _)) as [c ->].
  destruct c; [right | left].
  - rewrite byte.unsigned_of_Z. unfold byte.wrap. now apply Z.mod_small.
  - reflexivity.
Qed.

Ltac run_mask :=
  cbv [AVR.mask_of firstn length Nat.sub
       AVR.ram AVR.run AVR.dbl_code AVR.dblEAX_code AVR.dblXTS_code
       fold_left AVR.step AVR.set AVR.get AVR.regs AVR.carry AVR.enter
       AVR.reg_eqb write zero store8 Nat.eqb Nat.add];
  rewrite ?byte.of_Z_unsigned, ?sbc_mask by lia.

(** C9: the reduction mask of each doubling function is zero or the
    constant of its convention, whatever the buffer holds: 0xE1000000 for
    [GF128::dbl] and 0x00000087 for [GF128::dblEAX] and [GF128::dblXTS] in
    the portable code, and the bytes 0xE1 and 0x87 of these constants in
    the assembly blocks. *)
Theorem mask_two_valued (host : endian) (junk : AVR.reg -> byte) (cf : bool)
    (V : addr) (m : mem) :
  let mask := Portable.dbl_mask (be32toh host (load32 host m (idx V 3))) in
  let maskEAX := Portable.dblEAX_mask (be32toh host (load32 host m (idx V 0))) in
  let maskXTS := Portable.dblXTS_mask (le32toh host (load32 host m (idx V 3))) in
  let r17 := AVR.mask_of V AVR.dbl_code (AVR.enter junk cf m) in
  let r17EAX := AVR.mask_of V AVR.dblEAX_code (AVR.enter junk cf m) in
  let r17XTS := AVR.mask_of V AVR.dblXTS_code (AVR.enter junk cf m) in
  (mask = 0 \/ mask = 0xE1000000) /\
  (maskEAX = 0 \/ maskEAX = 0x00000087) /\
  (maskXTS = 0 \/ maskXTS = 0x00000087) /\
  (r17 = 0 \/ r17 = 0xE1) /\
  (r17EAX = 0 \/ r17EAX = 0x87) /\
  (r17XTS = 0 \/ r17XTS = 0x87).
Proof.
  cbv zeta. rewrite !load_be, load_le.
  rewrite dbl_mask_eq.
  rewrite dblEAX_mask_eq by apply be_value4_range, read_length.
  rewrite dblXTS_mask_eq
    by (unfold le_value; apply be_value4_range; rewrite length_rev; apply read_length).
  repeat split.
  - destruct (Z.testbit _ 0); auto.
  - destruct (Z.testbit _ 31); auto.
  - destruct (Z.testbit _ 31); auto.
  - apply avr_mask; [lia | reflexivity |].
    intros l. split16 l. run_mask. eauto.
  - apply avr_mask; [lia | reflexivity |].
    intros l. split16 l. run_mask. eauto.
  - apply avr_mask; [lia | reflexivity |].
    intros l. split16 l. run_mask. eauto.
Qed.

(** ** The multiplication *)

Lemma store32_other host m a w x :
  (x < a \/ a + 4 <= x)%nat -> store32 host m a w x = m x.
Proof.
  intros H. destruct host; cbn [store32]; apply write_other;
    rewrite ?le_bytes_length, ?be_bytes_length; exact H.
Qed.

Lemma memcpy_other m dst src n x :
  (x < dst \/ dst + n <= x)%nat -> memcpy m dst src n x = m x.
Proof. intros H. unfold memcpy. apply write_other. now rewrite read_length. Qed.

(** [GF128::mulInit] writes to the 16 bytes of [H] only. *)
Lemma mulInit_frame t H key m x :
  (x < H \/ H + 16 <= x)%nat -> GF128.mulInit t H key m x = m x.
Proof.
  intros Hx. unfold GF128.mulInit, idx.
  destruct t as [junk cf|[]]; cbv zeta;
    rewrite ?store32_other by lia; now apply memcpy_other.
Qed.

(** [GF128::mul] writes to its own stack frame only. *)
Lemma mul_frame multiply sp Y H m x :
  (x < sp \/ sp + GF128.frame_size <= x)%nat ->
  GF128.mul multiply sp Y H m x = m x.
Proof.
  unfold GF128.frame_size. intros Hx.
  unfold GF128.mul, GF128.aesMultiply, GF128.frame_h, GF128.frame_input,
    GF128.frame_result. cbv zeta.
  rewrite memcpy_other by lia.
  rewrite write_other by (rewrite length_firstn; lia).
  rewrite !memcpy_other by lia. reflexivity.
Qed.

(** The accumulator comes out of [GF128::mul] as it went in. *)
Lemma mul_keeps_accumulator multiply sp Y H m :
  disjoint sp GF128.frame_size Y 16 ->
  read (GF128.mul multiply sp Y H m) Y 16 = read m Y 16.
Proof.
  intros D. apply read_ext. intros x Hx. apply mul_frame.
  unfold disjoint in D. lia.
Qed.

(** C10, as stated: for every key, [GF128::mulInit] would leave the bytes
    of the key as they are.  It does not when the key is the array [H]
    itself: on a little-endian host the conversion of [H] to host order
    then reverses the bytes of each word of the key. *)
Lemma mulInit_swaps_aliased_key :
  read (GF128.mulInit (Host LittleEndian) 0%nat 0%nat (write zero 0%nat nist_H)) 0%nat 16 =
    bytes [0xd4; 0x4b; 0xe9; 0x66; 0x3b; 0x2c; 0x8a; 0xef;
           0x59; 0xfa; 0x4c; 0x88; 0x2e; 0x2b; 0x34; 0xca] /\
  read (GF128.mulInit (Host LittleEndian) 0%nat 0%nat (write zero 0%nat nist_H)) 0%nat 16 <>
    read (write zero 0%nat nist_H) 0%nat 16.
Proof. split; vm_compute; [reflexivity | discriminate]. Qed.

(** C10, amended: [GF128::mulInit] leaves the 16 bytes of its key as they
    are when the key does not overlap [H], and [GF128::mul] leaves the 16
    bytes of the multiplier state [H] as they are, its stack frame being
    apart from [H]. *)
Theorem inputs_read_only (t : target) (multiply : list byte -> list byte -> list byte)
    (sp Y H key : addr) (m : mem) :
  disjoint H 16 key 16 ->
  disjoint sp GF128.frame_size H 16 ->
  read (GF128.mulInit t H key m) key 16 = read m key 16 /\
  read (GF128.mul multiply sp Y H m) H 16 = read m H 16.
Proof.
  unfold disjoint. intros D1 D2. split; apply read_ext; intros x Hx.
  - apply mulInit_frame. lia.
  - apply mul_frame. lia.
Qed.

Lemma inputs_read_only_witness :
  read (GF128.mulInit (Host LittleEndian) 64%nat 80%nat mul_sample_memory) 80%nat 16 =
    read mul_sample_memory 80%nat 16 /\
  read (GF128.mul gf128_multiply 0%nat 48%nat 64%nat mul_sample_memory) 64%nat 16 =
    read mul_sample_memory 64%nat 16.
Proof.
  apply (inputs_read_only (Host LittleEndian) gf128_multiply 0%nat 48%nat 64%nat 80%nat
           mul_sample_memory);
    unfold disjoint, GF128.frame_size; lia.
Defined.

(** C1 fails on the code: after [GF128::mul] the accumulator is not the
    product.  With the key and the block of the NIST test case in memory,
    the accelerator is handed the operands whose product is the expected
    one, but the last [memcpy] copies [Y] over the product in the local
    array [result], and [Y] keeps the block. *)
Theorem mul_discards_product :
  let Y := 48%nat in
  let H := 64%nat in
  let key := 80%nat in
  let sp := 0%nat in
  let m0 := write (write zero Y nist_C) key nist_H in
  let m1 := GF128.mulInit (Avr AVR.cleared false) H key m0 in
  let m2 := GF128.mul gf128_multiply sp Y H m1 in
  read m1 Y 16 = nist_C /\
  read m1 H 16 = nist_H /\
  gf128_multiply (read m1 Y 16) (read m1 H 16) = nist_CH /\
  read m2 Y 16 = nist_C /\
  read m2 Y 16 <> nist_CH /\
  read m2 (GF128.frame_result sp) 16 = nist_C.
Proof. cbv zeta. repeat split; vm_compute; (reflexivity || discriminate). Qed.

(** * Further properties of the code *)

(** ** Where the doubling functions read and write *)

Lemma read_pointwise n m m' a a' q :
  read m a n = read m' a' n -> (q < n)%nat -> m (a + q)%nat = m' (a' + q)%nat.
Proof.
  intros H Hq.
  rewrite <- (read_nth n m a q Byte.x00 Hq), <- (read_nth n m' a' q Byte.x00 Hq).
  now rewrite H.
Qed.

(** X1: the three doubling functions work in place: they change no byte
    of the memory outside of the 16 bytes of [V]. *)
Theorem doubling_in_place (t : target) (V : addr) (m : mem) (x : addr) :
  (x < V \/ V + 16 <= x)%nat ->
  GF128.dbl t V m x = m x /\
  GF128.dblEAX t V m x = m x /\
  GF128.dblXTS t V m x = m x.
Proof. apply dbl_frame. Qed.

Lemma doubling_in_place_witness :
  GF128.dbl (Host LittleEndian) 16%nat (write zero 0%nat sample_block) 3%nat =
    write zero 0%nat sample_block 3%nat /\
  GF128.dblEAX (Host LittleEndian) 16%nat (write zero 0%nat sample_block) 3%nat =
    write zero 0%nat sample_block 3%nat /\
  GF128.dblXTS (Host LittleEndian) 16%nat (write zero 0%nat sample_block) 3%nat =
    write zero 0%nat sample_block 3%nat.
Proof.
  apply (doubling_in_place (Host LittleEndian) 16%nat (write zero 0%nat sample_block) 3%nat).
  left. lia.
Defined.

Lemma same_buffer_same_memory (f g : addr -> mem -> mem) V m :
  read (f V m) V 16 = read (g V m) V 16 ->
  (forall x, (x < V \/ V + 16 <= x)%nat -> f V m x = m x) ->
  (forall x, (x < V \/ V + 16 <= x)%nat -> g V m x = m x) ->
  forall x, f V m x = g V m x.
Proof.
  intros Hr Hf Hg x.
  destruct (Nat.lt_ge_cases x V) as [Hlo|Hlo];
    [rewrite Hf, Hg by lia; reflexivity|].
  destruct (Nat.lt_ge_cases x (V + 16)) as [Hhi|Hhi];
    [|rewrite Hf, Hg by lia; reflexivity].
  replace x with (V + (x - V))%nat by lia.
  apply (read_pointwise 16); [exact Hr | lia].
Qed.

(** X2: the branches of each doubling function agree: the AVR assembly,
    whatever its clobbered registers and the carry hold on entry, and the
    portable code, on a little-endian and on a big-endian host, leave the
    same memory behind, byte for byte. *)
Theorem branches_agree (t t' : target) (V : addr) (m : mem) (x : addr) :
  GF128.dbl t V m x = GF128.dbl t' V m x /\
  GF128.dblEAX t V m x = GF128.dblEAX t' V m x /\
  GF128.dblXTS t V m x = GF128.dblXTS t' V m x.
Proof.
  assert (F : forall u y, (y < V \/ V + 16 <= y)%nat ->
              GF128.dbl u V m y = m y /\
              GF128.dblEAX u V m y = m y /\
              GF128.dblXTS u V m y = m y)
    by (intros u y Hy; exact (dbl_frame u V m y Hy)).
  repeat split.
  - apply (same_buffer_same_memory (GF128.dbl t) (GF128.dbl t'));
      [now rewrite !dbl_value | intros y Hy; exact (proj1 (F _ y Hy)) ..].
  - apply (same_buffer_same_memory (GF128.dblEAX t) (GF128.dblEAX t'));
      [now rewrite !dblEAX_value
      | intros y Hy; exact (proj1 (proj2 (F _ y Hy))) ..].
  - apply (same_buffer_same_memory (GF128.dblXTS t) (GF128.dblXTS t'));
      [now rewrite !dblXTS_value
      | intros y Hy; exact (proj2 (proj2 (F _ y Hy))) ..].
Qed.

(** X3: the doubled buffer depends on the 16 bytes of the buffer only,
    not on its address and not on the rest of the memory. *)
Theorem doubling_reads_buffer_only (t : target) (V V' : addr) (m m' : mem) :
  read m V 16 = read m' V' 16 ->
  read (GF128.dbl t V m) V 16 = read (GF128.dbl t V' m') V' 16 /\
  read (GF128.dblEAX t V m) V 16 = read (GF128.dblEAX t V' m') V' 16 /\
  read (GF128.dblXTS t V m) V 16 = read (GF128.dblXTS t V' m') V' 16.
Proof.
  intros H. rewrite !dbl_value, !dblEAX_value, !dblXTS_value, H. auto.
Qed.

Lemma doubling_reads_buffer_only_witness :
  let t := Avr AVR.cleared false in
  let m := write zero 0%nat sample_block in
  let m' := write (write zero 0%nat nist_H) 32%nat sample_block in
  read (GF128.dbl t 0%nat m) 0%nat 16 = read (GF128.dbl t 32%nat m') 32%nat 16 /\
  read (GF128.dblEAX t 0%nat m) 0%nat 16 = read (GF128.dblEAX t 32%nat m') 32%nat 16 /\
  read (GF128.dblXTS t 0%nat m) 0%nat 16 = read (GF128.dblXTS t 32%nat m') 32%nat 16.
Proof.
  apply (doubling_reads_buffer_only (Avr AVR.cleared false) 0%nat 32%nat
           (write zero 0%nat sample_block)
           (write (write zero 0%nat nist_H) 32%nat sample_block)).
  vm_compute. reflexivity.
Defined.

(** ** The doubling functions are one to one and onto *)

Lemma testbit_high v n i : 0 <= v < 2 ^ n -> n <= i -> Z.testbit v i = false.
Proof.
  intros Hv Hi.
  assert (Hn : 0 <= n).
  { destruct (Z.lt_ge_cases n 0) as [Hneg|]; [|assumption].
    rewrite Z.pow_neg_r in Hv by exact Hneg. lia. }
  rewrite <- (Z.mod_small v (2 ^ n) Hv).
  rewrite Z.testbit_mod_pow2 by lia. now rewrite ltb_false by lia.
Qed.

(** The bit shifted out shows in the result: at the top after a shift to
    the right, at the bottom after a shift to the left. *)
Lemma double_right_top v :
  0 <= v < 2 ^ 128 -> Z.testbit (double_right v) 127 = Z.testbit v 0.
Proof.
  intros Hv. unfold double_right. rewrite Z.lxor_spec, testbit_shiftr.
  rewrite (testbit_high v 128) by (exact Hv || lia).
  now destruct (Z.testbit v 0).
Qed.

Lemma double_left_bottom v : Z.testbit (double_left v) 0 = Z.testbit v 127.
Proof.
  unfold double_left. rewrite Z.lxor_spec, Z.testbit_mod_pow2 by lia.
  rewrite testbit_shiftl by lia. now destruct (Z.testbit v 127).
Qed.

Lemma lxor_cancel_r a b c : Z.lxor a c = Z.lxor b c -> a = b.
Proof.
  intros H. apply (f_equal (fun x => Z.lxor x c)) in H.
  now rewrite !Z.lxor_assoc, Z.lxor_nilpotent, !Z.lxor_0_r in H.
Qed.

Lemma double_right_inj v w :
  0 <= v < 2 ^ 128 -> 0 <= w < 2 ^ 128 ->
  double_right v = double_right w -> v = w.
Proof.
  intros Hv Hw H.
  assert (H0 : Z.testbit v 0 = Z.testbit w 0)
    by (rewrite <- !double_right_top by assumption; now rewrite H).
  unfold double_right in H. rewrite H0 in H. apply lxor_cancel_r in H.
  apply Z.bits_inj'. intros i Hi.
  destruct (Z.eq_dec i 0) as [->|Hne]; [exact H0|].
  apply (f_equal (fun x => Z.testbit x (i - 1))) in H.
  rewrite !testbit_shiftr, leb_true in H by lia.
  now replace (i - 1 + 1) with i in H by lia.
Qed.

Lemma double_left_inj v w :
  0 <= v < 2 ^ 128 -> 0 <= w < 2 ^ 128 ->
  double_left v = double_left w -> v = w.
Proof.
  intros Hv Hw H.
  assert (H0 : Z.testbit v 127 = Z.testbit w 127)
    by (rewrite <- !double_left_bottom; now rewrite H).
  unfold double_left in H. rewrite H0 in H. apply lxor_cancel_r in H.
  apply Z.bits_inj'. intros i Hi.
  destruct (Z.eq_dec i 127) as [->|Hne]; [exact H0|].
  destruct (Z.lt_ge_cases i 127) as [Hlt|Hge].
  - apply (f_equal (fun x => Z.testbit x (i + 1))) in H.
    rewrite !Z.testbit_mod_pow2, !testbit_shiftl, ltb_true, leb_true in H by lia.
    now replace (i + 1 - 1) with i in H by lia.
  - now rewrite (testbit_high v 128), (testbit_high w 128) by (assumption || lia).
Qed.

Lemma be_value_inj a b :
  length a = length b -> be_value a = be_value b -> a = b.
Proof.
  intros Hl H. rewrite <- (be_bytes_value a), <- (be_bytes_value b).
  now rewrite Hl, H.
Qed.

Lemma le_value_inj a b :
  length a = length b -> le_value a = le_value b -> a = b.
Proof.
  intros Hl H. unfold le_value in H. apply be_value_inj in H.
  - now rewrite <- (rev_involutive a), <- (rev_involutive b), H.
  - now rewrite !length_rev.
Qed.

Lemma be_bytes16_inj v w :
  0 <= v < 2 ^ 128 -> 0 <= w < 2 ^ 128 -> be_bytes 16 v = be_bytes 16 w -> v = w.
Proof.
  intros Hv Hw H. apply (f_equal be_value) in H.
  now rewrite !be_value_bytes16, !Z.mod_small in H by assumption.
Qed.

Lemma double_right_range v : 0 <= v < 2 ^ 128 -> 0 <= double_right v < 2 ^ 128.
Proof.
  intros H. rewrite <- (double_right_mod v H). apply Z.mod_pos_bound. lia.
Qed.

Lemma double_left_range v : 0 <= double_left v < 2 ^ 128.
Proof. rewrite <- (double_left_mod v). apply Z.mod_pos_bound. lia. Qed.

Lemma le_value16_range b : length b = 16%nat -> 0 <= le_value b < 2 ^ 128.
Proof.
  intros H. unfold le_value. apply be_value16_range. now rewrite length_rev.
Qed.

(** X4: no two different buffers of 16 bytes double to the same buffer,
    with any of the three functions. *)
Theorem doubling_injective (t : target) (a b : list byte) :
  length a = 16%nat -> length b = 16%nat ->
  (on_buffer (GF128.dbl t) a = on_buffer (GF128.dbl t) b -> a = b) /\
  (on_buffer (GF128.dblEAX t) a = on_buffer (GF128.dblEAX t) b -> a = b) /\
  (on_buffer (GF128.dblXTS t) a = on_buffer (GF128.dblXTS t) b -> a = b).
Proof.
  intros Ha Hb.
  rewrite !on_buffer_dbl, !on_buffer_dblEAX, !on_buffer_dblXTS by assumption.
  pose proof (be_value16_range a Ha). pose proof (be_value16_range b Hb).
  pose proof (le_value16_range a Ha). pose proof (le_value16_range b Hb).
  repeat split; intros H3.
  - apply be_bytes16_inj in H3; try now apply double_right_range.
    apply double_right_inj in H3; try assumption.
    apply be_value_inj; congruence.
  - apply be_bytes16_inj in H3; try apply double_left_range.
    apply double_left_inj in H3; try assumption.
    apply be_value_inj; congruence.
  - apply (f_equal (@rev byte)) in H3. unfold le_bytes in H3.
    rewrite !rev_involutive in H3.
    apply be_bytes16_inj in H3; try apply double_left_range.
    apply double_left_inj in H3; try assumption.
    apply le_value_inj; congruence.
Qed.

Lemma doubling_injective_witness :
  (on_buffer (GF128.dbl (Host BigEndian)) sample_block =
   on_buffer (GF128.dbl (Host BigEndian)) sample_block -> sample_block = sample_block) /\
  (on_buffer (GF128.dblEAX (Host BigEndian)) sample_block =
   on_buffer (GF128.dblEAX (Host BigEndian)) sample_block -> sample_block = sample_block) /\
  (on_buffer (GF128.dblXTS (Host BigEndian)) sample_block =
   on_buffer (GF128.dblXTS (Host BigEndian)) sample_block -> sample_block = sample_block).
Proof.
  apply (doubling_injective (Host BigEndian) sample_block sample_block); reflexivity.
Defined.

Lemma double_right_onto w :
  0 <= w < 2 ^ 128 -> exists v, 0 <= v < 2 ^ 128 /\ double_right v = w.
Proof.
  intros Hw.
  set (c := Z.testbit w 127).
  set (R := Z.shiftl 0xE1 120).
  assert (HR : Z.testbit R 127 = true) by reflexivity.
  set (u := Z.lor (Z.shiftl (Z.lxor w (if c then R else 0)) 1) (AVR.bit c)).
  assert (Hu0 : Z.testbit u 0 = c).
  { unfold u. autorewrite with bits. split_cmp. split_eqb.
    now destruct c. }
  assert (Hd : double_right u = w).
  { unfold double_right. fold R. rewrite Hu0. unfold u.
    apply Z.bits_inj'. intros i Hi.
    autorewrite with bits. split_cmp. split_eqb. cbn [andb orb].
    replace (i + 1 - 1) with i by lia.
    destruct c, (Z.testbit w i), (Z.testbit R i); reflexivity. }
  exists u. split; [|exact Hd].
  assert (HRr : 0 <= R < 2 ^ 128) by (unfold R; cbn; lia).
  assert (Hm : u mod 2 ^ 128 = u).
  { unfold u. apply Z.bits_inj'. intros i Hi.
    autorewrite with bits. split_cmp; split_eqb; cbn [andb orb]; try reflexivity.
    rewrite orb_false_r.
    destruct (Z.eq_dec i 128) as [->|Hne].
    - replace (128 - 1) with 127 by lia. fold c. rewrite HR.
      now destruct c.
    - rewrite (testbit_high w 128), (testbit_high R 128) by (assumption || lia).
      now destruct c. }
  rewrite <- Hm. apply Z.mod_pos_bound. lia.
Qed.

Lemma double_left_onto w :
  0 <= w < 2 ^ 128 -> exists v, 0 <= v < 2 ^ 128 /\ double_left v = w.
Proof.
  intros Hw.
  remember (Z.testbit w 0) as c eqn:Hc.
  set (K := 0x87).
  assert (HK : Z.testbit K 0 = true) by reflexivity.
  assert (HKr : 0 <= K < 2 ^ 8) by (unfold K; lia).
  assert (HKh : forall i, 8 <= i -> Z.testbit K i = false)
    by (intros i Hi; apply (testbit_high K 8); assumption).
  assert (Hwh : forall i, 128 <= i -> Z.testbit w i = false)
    by (intros i Hi; apply (testbit_high w 128); assumption).
  set (u := Z.lor (Z.shiftr (Z.lxor w (if c then K else 0)) 1)
              (Z.shiftl (AVR.bit c) 127)).
  assert (Hu : Z.testbit u 127 = c).
  { unfold u. autorewrite with bits. split_cmp. split_eqb. cbn [andb orb].
    rewrite Hwh, HKh by lia. now destruct c. }
  assert (Hd : double_left u = w).
  { unfold double_left. fold K. rewrite Hu. unfold u.
    apply Z.bits_inj'. intros i Hi.
    autorewrite with bits. split_cmp; split_eqb; cbn [andb orb];
      rewrite ?orb_false_r.
    - replace (i - 1 + 1) with i by lia.
      destruct c, (Z.testbit w i), (Z.testbit K i); reflexivity.
    - replace i with 0 by lia. rewrite <- Hc, HK. now destruct c.
    - rewrite Hwh, HKh by lia. now destruct c.
    - rewrite Hwh, HKh by lia. now destruct c. }
  exists u. split; [|exact Hd].
  assert (Hm : u mod 2 ^ 128 = u).
  { unfold u. apply Z.bits_inj'. intros i Hi.
    autorewrite with bits. split_cmp; split_eqb; cbn [andb orb]; try reflexivity.
    rewrite Hwh, HKh by lia. now destruct c. }
  rewrite <- Hm. apply Z.mod_pos_bound. lia.
Qed.

Lemma be_bytes16_value b : length b = 16%nat -> be_bytes 16 (be_value b) = b.
Proof. intros H. rewrite <- H. apply be_bytes_value. Qed.

Lemma le_bytes16_value b : length b = 16%nat -> le_bytes 16 (le_value b) = b.
Proof.
  intros H. unfold le_bytes, le_value.
  rewrite be_bytes16_value by now rewrite length_rev.
  apply rev_involutive.
Qed.

(** X5: every buffer of 16 bytes is the double of a buffer of 16 bytes,
    for each of the three functions: with X4, doubling permutes the
    buffers of 16 bytes. *)
Theorem doubling_surjective (t : target) (b : list byte) :
  length b = 16%nat ->
  (exists a, length a = 16%nat /\ on_buffer (GF128.dbl t) a = b) /\
  (exists a, length a = 16%nat /\ on_buffer (GF128.dblEAX t) a = b) /\
  (exists a, length a = 16%nat /\ on_buffer (GF128.dblXTS t) a = b).
Proof.
  intros Hb.
  destruct (double_right_onto (be_value b) (be_value16_range b Hb))
    as (v & Hv & Ev).
  destruct (double_left_onto (be_value b) (be_value16_range b Hb))
    as (v' & Hv' & Ev').
  destruct (double_left_onto (le_value b) (le_value16_range b Hb))
    as (v'' & Hv'' & Ev'').
  repeat split.
  - exists (be_bytes 16 v). split; [apply be_bytes_length|].
    rewrite on_buffer_dbl, be_value_bytes16, Z.mod_small, Ev
      by (assumption || apply be_bytes_length).
    now apply be_bytes16_value.
  - exists (be_bytes 16 v'). split; [apply be_bytes_length|].
    rewrite on_buffer_dblEAX, be_value_bytes16, Z.mod_small, Ev'
      by (assumption || apply be_bytes_length).
    now apply be_bytes16_value.
  - exists (le_bytes 16 v''). split; [apply le_bytes_length|].
    rewrite on_buffer_dblXTS, le_value_bytes16, Z.mod_small, Ev''
      by (assumption || apply le_bytes_length).
    now apply le_bytes16_value.
Qed.

Lemma doubling_surjective_witness :
  (exists a, length a = 16%nat /\ on_buffer (GF128.dbl (Host LittleEndian)) a = sample_block) /\
  (exists a, length a = 16%nat /\ on_buffer (GF128.dblEAX (Host LittleEndian)) a = sample_block) /\
  (exists a, length a = 16%nat /\ on_buffer (GF128.dblXTS (Host LittleEndian)) a = sample_block).
Proof.
  apply (doubling_surjective (Host LittleEndian) sample_block). reflexivity.
Defined.

(** ** The bit that is shifted out *)

Lemma be_bytes_head v : hd Byte.x00 (be_bytes 16 v) = byte.of_Z (Z.shiftr v 120).
Proof. reflexivity. Qed.

Lemma read_hd m V n : hd Byte.x00 (read m V (S n)) = m V.
Proof. reflexivity. Qed.

Lemma read_last m V n : last (read m V (S n)) Byte.x00 = m (V + n)%nat.
Proof.
  revert V. induction n as [|n IH]; intros V.
  - cbn. f_equal. lia.
  - change (read m V (S (S n))) with (m V :: read m (S V) (S n)).
    change (last (m V :: read m (S V) (S n)) Byte.x00)
      with (last (read m (S V) (S n)) Byte.x00).
    rewrite IH. f_equal. lia.
Qed.

(** X6: the bit a doubling function shifts out of the value is the bit
    that decides the reduction, and it can be read off the result:
    [GF128::dbl] leaves the lowest bit of the last byte in the top bit of
    the first byte, [GF128::dblEAX] leaves the top bit of the first byte in
    the lowest bit of the last byte, and [GF128::dblXTS] leaves the top bit
    of the last byte in the lowest bit of the first byte. *)
Theorem shifted_out_bit (t : target) (V : addr) (m : mem) :
  Z.testbit (byte.unsigned (GF128.dbl t V m V)) 7 =
    Z.testbit (byte.unsigned (m (V + 15)%nat)) 0 /\
  Z.testbit (byte.unsigned (GF128.dblEAX t V m (V + 15)%nat)) 0 =
    Z.testbit (byte.unsigned (m V)) 7 /\
  Z.testbit (byte.unsigned (GF128.dblXTS t V m V)) 0 =
    Z.testbit (byte.unsigned (m (V + 15)%nat)) 7.
Proof.
  pose proof (be_value16_range (read m V 16) (read_length _ _ _)) as Rb.
  pose proof (le_value16_range (read m V 16) (read_length _ _ _)) as Rl.
  repeat split.
  - rewrite <- (read_hd (GF128.dbl t V m) V 15), dbl_value.
    cbn [be_bytes hd]. norm_idx.
    rewrite byte.unsigned_of_Z. unfold byte.wrap.
    rewrite Z.testbit_mod_pow2, testbit_shiftr by lia.
    change (7 <? 8) with true. change (0 <=? 7) with true. cbn [andb].
    change (7 + 120) with 127.
    rewrite double_right_top by exact Rb.
    now rewrite be_value_bit0, read_last.
  - rewrite <- (read_last (GF128.dblEAX t V m) V 15), dblEAX_value.
    cbn [be_bytes last]. norm_idx. rewrite Z.shiftr_0_r.
    rewrite byte.unsigned_of_Z. unfold byte.wrap.
    rewrite Z.testbit_mod_pow2 by lia. change (0 <? 8) with true. cbn [andb].
    rewrite double_left_bottom.
    change (read m V 16) with (m V :: read m (S V) 15).
    rewrite <- (be_value_top (m V) (read m (S V) 15)), read_length.
    reflexivity.
  - rewrite <- (read_hd (GF128.dblXTS t V m) V 15), dblXTS_value.
    cbn [le_bytes be_bytes rev app hd]. norm_idx. rewrite Z.shiftr_0_r.
    rewrite byte.unsigned_of_Z. unfold byte.wrap.
    rewrite Z.testbit_mod_pow2 by lia. change (0 <? 8) with true. cbn [andb].
    rewrite double_left_bottom.
    rewrite le_value_bit127 by apply read_length.
    now rewrite read_last.
Qed.

(** ** [GF128::dblEAX] is [GF128::dbl] in a mirror *)

Lemma testbit_mirror n : forall v i,
  Z.testbit (mirror n v) i =
  (0 <=? i) && (i <? Z.of_nat n) && Z.testbit v (Z.of_nat n - 1 - i).
Proof.
  induction n as [|n IH]; intros v i.
  - cbn [mirror]. rewrite Z.testbit_0_l. split_cmp; reflexivity.
  - cbn [mirror]. change (if Z.testbit v 0 then 1 else 0) with (AVR.bit (Z.testbit v 0)).
    rewrite Z.lor_spec, IH, testbit_shiftl, testbit_bit, testbit_shiftr by lia.
    split_cmp; split_eqb; cbn [andb orb]; rewrite ?orb_false_r; try reflexivity.
    all: try (f_equal; lia).
    all: try lia.
Qed.

Lemma mirror_constants i :
  0 <= i -> Z.testbit 0x87 i = (i <? 128) && Z.testbit (Z.shiftl 0xE1 120) (127 - i).
Proof.
  intros Hi. rewrite testbit_shiftl by lia.
  destruct (Z.lt_ge_cases i 8) as [Hlt|Hge].
  - assert (E : i = 0 \/ i = 1 \/ i = 2 \/ i = 3 \/ i = 4 \/ i = 5 \/ i = 6 \/ i = 7)
      by lia.
    destruct E as [-> | [-> | [-> | [-> | [-> | [-> | [-> | ->]]]]]]];
      reflexivity.
  - rewrite (testbit_high 0x87 8) by lia.
    split_cmp; cbn [andb]; reflexivity.
Qed.

Lemma mirror_double v :
  0 <= v < 2 ^ 128 ->
  double_left (mirror 128 v) = mirror 128 (double_right v).
Proof.
  intros Hv. apply Z.bits_inj'. intros i Hi.
  unfold double_left, double_right.
  rewrite (testbit_mirror 128 v 127).
  change (Z.of_nat 128 - 1 - 127) with 0.
  change ((0 <=? 127) && (127 <? Z.of_nat 128)) with true. cbn [andb].
  rewrite testbit_mirror, !Z.lxor_spec, Z.testbit_mod_pow2, testbit_shiftl,
    testbit_mirror, testbit_shiftr, !testbit_if, mirror_constants by lia.
  change (Z.of_nat 128) with 128. rewrite !Z.testbit_0_l.
  destruct (Z.testbit v 0); split_cmp; cbn [andb orb negb xorb];
    rewrite ?orb_false_r, ?xorb_false_r; try reflexivity.
  all: try rewrite (testbit_high v 128 (128 - 1 - i + 1)) by (assumption || lia).
  all: rewrite ?xorb_false_l; try reflexivity.
  all: assert (E1 : 128 - 1 - (i - 1) = 128 - 1 - i + 1) by lia;
    assert (E2 : 127 - i = 128 - 1 - i) by lia;
    rewrite ?E1, ?E2; reflexivity.
Qed.

Lemma mirror_mod n v : mirror n v mod 2 ^ Z.of_nat n = mirror n v.
Proof.
  apply Z.bits_inj'. intros i Hi.
  rewrite Z.testbit_mod_pow2, testbit_mirror by lia.
  split_cmp; reflexivity.
Qed.

Lemma mirror_range v : 0 <= mirror 128 v < 2 ^ 128.
Proof.
  rewrite <- (mirror_mod 128 v). apply Z.mod_pos_bound. reflexivity.
Qed.

Lemma mirror_mirror v : 0 <= v < 2 ^ 128 -> mirror 128 (mirror 128 v) = v.
Proof.
  intros Hv. apply Z.bits_inj'. intros i Hi.
  rewrite !testbit_mirror. change (Z.of_nat 128) with 128.
  split_cmp; cbn [andb].
  - f_equal. lia.
  - now rewrite (testbit_high v 128) by (assumption || lia).
Qed.

Lemma mirror_block_length b : length (mirror_block b) = 16%nat.
Proof. apply be_bytes_length. Qed.

Lemma be_value_mirror_block b : be_value (mirror_block b) = mirror 128 (be_value b).
Proof.
  unfold mirror_block. rewrite be_value_bytes16.
  apply Z.mod_small, mirror_range.
Qed.

Lemma mirror_double_left v :
  0 <= v < 2 ^ 128 ->
  double_right (mirror 128 v) = mirror 128 (double_left v).
Proof.
  intros Hv.
  rewrite <- (mirror_mirror v Hv) at 2.
  rewrite mirror_double by apply mirror_range.
  apply eq_sym, mirror_mirror, double_right_range, mirror_range.
Qed.

(** X7: [GF128::dblEAX] is [GF128::dbl] with the 128 bits of the block in
    the opposite order: doubling the mirror image of a block with
    [GF128::dblEAX] gives the mirror image of the block doubled with
    [GF128::dbl].  Taking the mirror image twice gives the block back, and
    the same holds with the two functions exchanged. *)
Theorem dblEAX_mirrors_dbl (t t' : target) (b : list byte) :
  length b = 16%nat ->
  on_buffer (GF128.dblEAX t) (mirror_block b) = mirror_block (on_buffer (GF128.dbl t') b) /\
  on_buffer (GF128.dbl t') (mirror_block b) = mirror_block (on_buffer (GF128.dblEAX t) b) /\
  mirror_block (mirror_block b) = b.
Proof.
  intros Hb.
  pose proof (be_value16_range b Hb) as Rb.
  rewrite !on_buffer_dblEAX, !on_buffer_dbl by (exact Hb || apply mirror_block_length).
  rewrite !be_value_mirror_block, mirror_double, mirror_double_left by exact Rb.
  unfold mirror_block. rewrite !be_value_bytes16.
  rewrite (Z.mod_small (double_right _)) by now apply double_right_range.
  rewrite (Z.mod_small (double_left _)) by apply double_left_range.
  rewrite (Z.mod_small (mirror _ _)) by apply mirror_range.
  rewrite mirror_mirror by exact Rb.
  repeat split. now apply be_bytes16_value.
Qed.

Lemma dblEAX_mirrors_dbl_witness :
  on_buffer (GF128.dblEAX (Host LittleEndian)) (mirror_block sample_block) =
    mirror_block (on_buffer (GF128.dbl (Avr AVR.cleared false)) sample_block) /\
  on_buffer (GF128.dbl (Avr AVR.cleared false)) (mirror_block sample_block) =
    mirror_block (on_buffer (GF128.dblEAX (Host LittleEndian)) sample_block) /\
  mirror_block (mirror_block sample_block) = sample_block.
Proof.
  apply (dblEAX_mirrors_dbl (Host LittleEndian) (Avr AVR.cleared false) sample_block).
  reflexivity.
Defined.

Example mirror_block_samples :
  mirror_block top_bit_block = low_bit_block /\
  mirror_block e1_block = bytes [0; 0; 0; 0; 0; 0; 0; 0; 0; 0; 0; 0; 0; 0; 0; 0x87] /\
  mirror_block (bytes [0x01; 0x02; 0; 0; 0; 0; 0; 0; 0; 0; 0; 0; 0; 0; 0; 0xF0]) =
    bytes [0x0F; 0; 0; 0; 0; 0; 0; 0; 0; 0; 0; 0; 0; 0; 0x40; 0x80].
Proof. repeat split; vm_compute; reflexivity. Qed.

(** ** Doubling without reduction *)

Lemma double_left_small v :
  0 <= v < 2 ^ 127 -> double_left v = 2 * v.
Proof.
  intros Hv. unfold double_left.
  rewrite (testbit_high v 127) by (assumption || lia).
  rewrite Z.lxor_0_r, Z.shiftl_mul_pow2 by lia.
  rewrite Z.mod_small by lia. lia.
Qed.

Lemma double_right_even v :
  Z.testbit v 0 = false -> double_right v = v / 2.
Proof.
  intros H. unfold double_right. rewrite H, Z.lxor_0_r.
  now rewrite Z.shiftr_div_pow2 by lia.
Qed.

(** X8: when the lowest bit of the last byte is clear, [GF128::dbl] halves
    the big-endian number in the buffer, and the first byte of the result
    is below 0x80. *)
Theorem dbl_halves (t : target) (V : addr) (m : mem) :
  Z.testbit (byte.unsigned (m (V + 15)%nat)) 0 = false ->
  be_value (read (GF128.dbl t V m) V 16) = be_value (read m V 16) / 2 /\
  byte.unsigned (GF128.dbl t V m V) < 0x80.
Proof.
  intros H.
  pose proof (be_value16_range (read m V 16) (read_length _ _ _)) as Rb.
  assert (H0 : Z.testbit (be_value (read m V 16)) 0 = false)
    by now rewrite be_value_bit0, read_last.
  split.
  - rewrite dbl_value, be_value_bytes16, double_right_even by exact H0.
    apply Z.mod_small. split; [apply Z.div_pos; lia|].
    apply Z.div_lt_upper_bound; lia.
  - rewrite <- (read_hd (GF128.dbl t V m) V 15), dbl_value.
    cbn [be_bytes hd]. norm_idx.
    rewrite double_right_even, byte.unsigned_of_Z by exact H0.
    unfold byte.wrap. rewrite Z.shiftr_div_pow2 by lia.
    rewrite Z.mod_small.
    + apply Z.div_lt_upper_bound; [lia|].
      assert (be_value (read m V 16) / 2 < 2 ^ 127)
        by (apply Z.div_lt_upper_bound; lia).
      change (2 ^ 120 * 128) with (2 ^ 127). lia.
    + split; [apply Z.div_pos; [apply Z.div_pos|]; lia|].
      apply Z.div_lt_upper_bound; [lia|].
      assert (be_value (read m V 16) / 2 < 2 ^ 127)
        by (apply Z.div_lt_upper_bound; lia).
      change (2 ^ 120 * 2 ^ 8) with (2 ^ 128). lia.
Qed.

Lemma dbl_halves_witness :
  be_value (read (GF128.dbl (Host LittleEndian) 0%nat (write zero 0%nat nist_C)) 0%nat 16) =
    be_value (read (write zero 0%nat nist_C) 0%nat 16) / 2 /\
  byte.unsigned (GF128.dbl (Host LittleEndian) 0%nat (write zero 0%nat nist_C) 0%nat) < 0x80.
Proof.
  apply (dbl_halves (Host LittleEndian) 0%nat (write zero 0%nat nist_C)).
  vm_compute. reflexivity.
Defined.

Lemma top_clear_small v :
  0 <= v < 2 ^ 128 -> Z.testbit v 127 = false -> v < 2 ^ 127.
Proof.
  intros Hv H.
  destruct (Z.lt_ge_cases v (2 ^ 127)) as [|Hge]; [assumption|].
  apply Z.testbit_false in H; [|lia].
  assert (E : v / 2 ^ 127 = 1)
    by (symmetry; apply Z.div_unique with (r := v - 2 ^ 127); lia).
  rewrite E in H. discriminate.
Qed.

(** X9: when the top bit of the first byte is clear, [GF128::dblEAX]
    doubles the big-endian number in the buffer. *)
Theorem dblEAX_doubles (t : target) (V : addr) (m : mem) :
  Z.testbit (byte.unsigned (m V)) 7 = false ->
  be_value (read (GF128.dblEAX t V m) V 16) = 2 * be_value (read m V 16).
Proof.
  intros H.
  pose proof (be_value16_range (read m V 16) (read_length _ _ _)) as Rb.
  assert (H0 : Z.testbit (be_value (read m V 16)) 127 = false).
  { change (read m V 16) with (m V :: read m (S V) 15).
    rewrite <- H, <- (be_value_top (m V) (read m (S V) 15)), read_length.
    reflexivity. }
  rewrite dblEAX_value, be_value_bytes16, double_left_mod.
  unfold double_left. rewrite H0, Z.lxor_0_r, Z.shiftl_mul_pow2 by lia.
  assert (Hs : be_value (read m V 16) < 2 ^ 127)
    by now apply top_clear_small.
  rewrite Z.mod_small by lia. lia.
Qed.

Lemma dblEAX_doubles_witness :
  be_value (read (GF128.dblEAX (Host BigEndian) 0%nat (write zero 0%nat nist_C)) 0%nat 16) =
    2 * be_value (read (write zero 0%nat nist_C) 0%nat 16).
Proof.
  apply (dblEAX_doubles (Host BigEndian) 0%nat (write zero 0%nat nist_C)).
  vm_compute. reflexivity.
Defined.

(** X10: when the top bit of the last byte is clear, [GF128::dblXTS]
    doubles the little-endian number in the buffer. *)
Theorem dblXTS_doubles (t : target) (V : addr) (m : mem) :
  Z.testbit (byte.unsigned (m (V + 15)%nat)) 7 = false ->
  le_value (read (GF128.dblXTS t V m) V 16) = 2 * le_value (read m V 16).
Proof.
  intros H.
  pose proof (le_value16_range (read m V 16) (read_length _ _ _)) as Rb.
  assert (H0 : Z.testbit (le_value (read m V 16)) 127 = false)
    by now rewrite le_value_bit127, read_last by apply read_length.
  rewrite dblXTS_value, le_value_bytes16, double_left_mod.
  unfold double_left. rewrite H0, Z.lxor_0_r, Z.shiftl_mul_pow2 by lia.
  assert (Hs : le_value (read m V 16) < 2 ^ 127)
    by now apply top_clear_small.
  rewrite Z.mod_small by lia. lia.
Qed.

Lemma dblXTS_doubles_witness :
  le_value (read (GF128.dblXTS (Avr AVR.cleared false) 0%nat (write zero 0%nat nist_C)) 0%nat 16) =
    2 * le_value (read (write zero 0%nat nist_C) 0%nat 16).
Proof.
  apply (dblXTS_doubles (Avr AVR.cleared false) 0%nat (write zero 0%nat nist_C)).
  vm_compute. reflexivity.
Defined.

(** ** What [GF128::mulInit] leaves in [H] *)

Lemma read_write_apart bs m a b n :
  disjoint a (length bs) b n -> read (write m a bs) b n = read m b n.
Proof.
  intros D. apply read_ext. intros x Hx. apply write_other.
  unfold disjoint in D. lia.
Qed.





(** X12: [GF128::mulInit] changes no byte of the memory outside of the 16
    bytes of [H], on any target. *)
Theorem mulInit_in_place (t : target) (H key : addr) (m : mem) (x : addr) :
  (x < H \/ H + 16 <= x)%nat -> GF128.mulInit t H key m x = m x.
Proof. apply mulInit_frame. Qed.

Lemma mulInit_in_place_witness :
  GF128.mulInit (Host LittleEndian) 16%nat 0%nat (write zero 0%nat nist_H) 3%nat =
  write zero 0%nat nist_H 3%nat.
Proof.
  apply (mulInit_in_place (Host LittleEndian) 16%nat 0%nat (write zero 0%nat nist_H) 3%nat).
  left. lia.
Defined.

(** ** What [GF128::mul] leaves behind *)

Section MulFacts.

Variable multiply : list byte -> list byte -> list byte.
Variables (sp Y H : addr) (m : mem).
Hypothesis frame_Y : disjoint sp GF128.frame_size Y 16.
Hypothesis frame_H : disjoint sp GF128.frame_size H 16.

Lemma mul_locals :
  read (GF128.mul multiply sp Y H m) (GF128.frame_h sp) 16 = read m H 16 /\
  read (GF128.mul multiply sp Y H m) (GF128.frame_input sp) 16 = read m Y 16 /\
  read (GF128.mul multiply sp Y H m) (GF128.frame_result sp) 16 = read m Y 16.
Proof.
  unfold disjoint, GF128.frame_size in *.
  unfold GF128.mul, GF128.aesMultiply, GF128.frame_h, GF128.frame_input,
    GF128.frame_result. cbv zeta.
  set (m1 := memcpy m sp H 16).
  set (m2 := memcpy m1 (sp + 16)%nat Y 16).
  set (p := firstn 16 (multiply (read m2 (sp + 16)%nat 16) (read m2 sp 16))).
  assert (Hp : (length p <= 16)%nat) by (unfold p; rewrite length_firstn; lia).
  set (m3 := write m2 (sp + 32)%nat p).
  assert (E1 : read m1 Y 16 = read m Y 16)
    by (unfold m1, memcpy; apply read_write_apart;
        rewrite read_length; unfold disjoint; lia).
  assert (E3 : read m3 Y 16 = read m Y 16).
  { unfold m3. rewrite read_write_apart by (unfold disjoint; lia).
    unfold m2, memcpy. rewrite read_write_apart
      by (rewrite read_length; unfold disjoint; lia).
    exact E1. }
  repeat split.
  - unfold memcpy at 1. rewrite read_write_apart
      by (rewrite read_length; unfold disjoint; lia).
    unfold m3. rewrite read_write_apart by (unfold disjoint; lia).
    unfold m2, memcpy. rewrite read_write_apart
      by (rewrite read_length; unfold disjoint; lia).
    apply memcpy_dst.
  - unfold memcpy at 1. rewrite read_write_apart
      by (rewrite read_length; unfold disjoint; lia).
    unfold m3. rewrite read_write_apart by (unfold disjoint; lia).
    unfold m2. rewrite memcpy_dst. exact E1.
  - rewrite memcpy_dst. exact E3.
Qed.

End MulFacts.

(** X13: whatever the accelerator computes, [GF128::mul] changes no byte
    outside of its own stack frame, so the accumulator [Y], the multiplier
    state [H] and all other memory of the caller are as before the call;
    at the end the local arrays [h] and [input] hold copies of [H] and of
    [Y], and the local array [result] holds a copy of [Y] as well, not the
    product. *)
Theorem mul_final_memory (multiply : list byte -> list byte -> list byte)
    (sp Y H : addr) (m : mem) :
  disjoint sp GF128.frame_size Y 16 ->
  disjoint sp GF128.frame_size H 16 ->
  let m' := GF128.mul multiply sp Y H m in
  (forall x, (x < sp \/ sp + GF128.frame_size <= x)%nat -> m' x = m x) /\
  read m' Y 16 = read m Y 16 /\
  read m' H 16 = read m H 16 /\
  read m' (GF128.frame_h sp) 16 = read m H 16 /\
  read m' (GF128.frame_input sp) 16 = read m Y 16 /\
  read m' (GF128.frame_result sp) 16 = read m Y 16.
Proof.
  intros DY DH. cbv zeta.
  split; [intros x Hx; now apply mul_frame|].
  split; [now apply mul_keeps_accumulator|].
  split.
  - apply read_ext. intros x Hx. apply mul_frame. unfold disjoint in DH. lia.
  - now apply mul_locals.
Qed.

Lemma mul_final_memory_witness :
  let m := write (write zero 48%nat nist_C) 64%nat nist_H in
  let m' := GF128.mul gf128_multiply 0%nat 48%nat 64%nat m in
  (forall x, (x < 0 \/ 0 + GF128.frame_size <= x)%nat -> m' x = m x) /\
  read m' 48%nat 16 = read m 48%nat 16 /\
  read m' 64%nat 16 = read m 64%nat 16 /\
  read m' (GF128.frame_h 0%nat) 16 = read m 64%nat 16 /\
  read m' (GF128.frame_input 0%nat) 16 = read m 48%nat 16 /\
  read m' (GF128.frame_result 0%nat) 16 = read m 48%nat 16.
Proof.
  apply (mul_final_memory gf128_multiply 0%nat 48%nat 64%nat
           (write (write zero 48%nat nist_C) 64%nat nist_H));
    unfold disjoint, GF128.frame_size; lia.
Defined.

(** X14: the memory [GF128::mul] leaves behind does not depend on the
    accelerator: with any two multiplications it is the same, byte for
    byte, the stack frame included. *)
Theorem mul_ignores_accelerator
    (multiply multiply' : list byte -> list byte -> list byte)
    (sp Y H : addr) (m : mem) (x : addr) :
  disjoint sp GF128.frame_size Y 16 ->
  disjoint sp GF128.frame_size H 16 ->
  GF128.mul multiply sp Y H m x = GF128.mul multiply' sp Y H m x.
Proof.
  intros DY DH.
  destruct (mul_locals multiply sp Y H m DY DH) as (A1 & A2 & A3).
  destruct (mul_locals multiply' sp Y H m DY DH) as (B1 & B2 & B3).
  unfold GF128.frame_h, GF128.frame_input, GF128.frame_result in *.
  unfold GF128.frame_size in *.
  destruct (Nat.lt_ge_cases x sp) as [Hlo|Hlo];
    [rewrite !mul_frame by (unfold GF128.frame_size; lia); reflexivity|].
  destruct (Nat.lt_ge_cases x (sp + 48)) as [Hhi|Hhi];
    [|rewrite !mul_frame by (unfold GF128.frame_size; lia); reflexivity].
  destruct (Nat.lt_ge_cases x (sp + 16)) as [H1|H1].
  - replace x with (sp + (x - sp))%nat by lia.
    apply (read_pointwise 16); [congruence | lia].
  - destruct (Nat.lt_ge_cases x (sp + 32)) as [H2|H2].
    + replace x with (sp + 16 + (x - (sp + 16)))%nat by lia.
      apply (read_pointwise 16); [congruence | lia].
    + replace x with (sp + 32 + (x - (sp + 32)))%nat by lia.
      apply (read_pointwise 16); [congruence | lia].
Qed.

Lemma mul_ignores_accelerator_witness :
  GF128.mul gf128_multiply 0%nat 48%nat 64%nat
    (write (write zero 48%nat nist_C) 64%nat nist_H) 40%nat =
  GF128.mul (fun a _ => a) 0%nat 48%nat 64%nat
    (write (write zero 48%nat nist_C) 64%nat nist_H) 40%nat.
Proof.
  apply (mul_ignores_accelerator gf128_multiply (fun a _ => a) 0%nat 48%nat 64%nat
           (write (write zero 48%nat nist_C) 64%nat nist_H) 40%nat);
    unfold disjoint, GF128.frame_size; lia.
Defined.

(** ** The mask of the assembly blocks *)

Lemma avr_mask_window junk cf V m p :
  AVR.in_window 16 p = true ->
  AVR.mask_of V p (AVR.enter junk cf m) =
  AVR.mask_of 0%nat p (AVR.enter junk cf (write zero 0%nat (read m V 16))).
Proof.
  intros Hp.
  assert (Hw : AVR.in_window 16 (firstn (length p - 2) p) = true).
  { unfold AVR.in_window in *.
    rewrite <- (firstn_skipn (length p - 2) p), forallb_app in Hp.
    now apply andb_true_iff in Hp. }
  unfold AVR.mask_of. apply (AVRFacts.get_same 16 V).
  apply AVRFacts.run_same; [exact Hw | apply enter_same].
Qed.

(** X15: in the assembly blocks the mask byte in [r17] is the constant of
    the block exactly when the bit shifted out is set: the lowest bit of
    the last byte for [GF128::dbl], the top bit of the first byte for
    [GF128::dblEAX], the top bit of the last byte for [GF128::dblXTS];
    it does not depend on what the registers and the carry hold on
    entry. *)
Theorem avr_mask_value (junk : AVR.reg -> byte) (cf : bool) (V : addr) (m : mem) :
  AVR.mask_of V AVR.dbl_code (AVR.enter junk cf m) =
    (if Z.testbit (byte.unsigned (m (V + 15)%nat)) 0 then 0xE1 else 0) /\
  AVR.mask_of V AVR.dblEAX_code (AVR.enter junk cf m) =
    (if Z.testbit (byte.unsigned (m V)) 7 then 0x87 else 0) /\
  AVR.mask_of V AVR.dblXTS_code (AVR.enter junk cf m) =
    (if Z.testbit (byte.unsigned (m (V + 15)%nat)) 7 then 0x87 else 0).
Proof.
  rewrite (avr_mask_window junk cf V m AVR.dbl_code),
    (avr_mask_window junk cf V m AVR.dblEAX_code),
    (avr_mask_window junk cf V m AVR.dblXTS_code) by reflexivity.
  rewrite <- (read_last m V 15), <- (read_hd m V 15).
  pose proof (read_length 16 m V) as Hl.
  generalize dependent (read m V 16). intros l. split16 l.
  cbn [last hd]. run_mask.
  repeat split;
    match goal with |- context [if ?c then _ else _] => destruct c end;
    reflexivity.
Qed.

(** ** [GF128::dblXTS] is [GF128::dbl] with the bits of every byte flipped *)

Example flip_bytes_sample :
  flip_bytes (bytes [0x01; 0x02; 0; 0; 0; 0; 0; 0; 0; 0; 0; 0; 0; 0; 0x0F; 0xF1]) =
  bytes [0x80; 0x40; 0; 0; 0; 0; 0; 0; 0; 0; 0; 0; 0; 0; 0xF0; 0x8F].
Proof. vm_compute. reflexivity. Qed.

Lemma flip_bytes_length b : length (flip_bytes b) = 16%nat.
Proof. unfold flip_bytes. rewrite length_rev. apply mirror_block_length. Qed.

Lemma le_value_flip_bytes b : le_value (flip_bytes b) = mirror 128 (be_value b).
Proof.
  unfold flip_bytes, le_value. rewrite rev_involutive.
  apply be_value_mirror_block.
Qed.

(** X16: [GF128::dblXTS] is [GF128::dbl] with the bits of every byte in the
    opposite order: doubling a block with its bytes flipped with
    [GF128::dblXTS] gives the block doubled with [GF128::dbl], flipped. *)
Theorem dblXTS_flips_dbl (t t' : target) (b : list byte) :
  length b = 16%nat ->
  on_buffer (GF128.dblXTS t) (flip_bytes b) = flip_bytes (on_buffer (GF128.dbl t') b).
Proof.
  intros Hb.
  pose proof (be_value16_range b Hb) as Rb.
  rewrite on_buffer_dblXTS, on_buffer_dbl by (exact Hb || apply flip_bytes_length).
  rewrite le_value_flip_bytes, mirror_double by exact Rb.
  unfold flip_bytes, mirror_block, le_bytes. rewrite be_value_bytes16.
  now rewrite Z.mod_small by now apply double_right_range.
Qed.

Lemma dblXTS_flips_dbl_witness :
  on_buffer (GF128.dblXTS (Host BigEndian)) (flip_bytes sample_block) =
  flip_bytes (on_buffer (GF128.dbl (Host LittleEndian)) sample_block).
Proof.
  apply (dblXTS_flips_dbl (Host BigEndian) (Host LittleEndian) sample_block).
  reflexivity.
Defined.
